(** * Issue triage action: a shallow embedding of [issueTriage.js] and of the
    start-up script that builds its options.

    The first half holds the definitions:
    - [JS]: the fragment of the ECMAScript library the action calls
      ([String.prototype.replace] with a string pattern, [Math.round],
      [Math.ceil], number printing);
    - the data exchanged with the tracker client, and a small
      state-and-exception monad in which the asynchronous methods run;
    - the methods of [class ActionIssueTriage], one definition per method,
      and the start-up script ([Index]);
    - a worked run ([Scenario]), the vocabulary of the properties, and the
      loops of the action in closed form.

    The second half holds the properties: the closed forms are proved equal
    to the methods, and the behaviour of fetching, triage by age, message
    rendering, failure isolation, counting, reporting and dry runs is
    derived from them. *)

From Stdlib Require Import ZArith List Bool Lia String Ascii DecimalString.
From Stdlib Require Import DecimalPos.
Import ListNotations.

Local Open Scope Z_scope.
Local Open Scope list_scope.

(** String concatenation is written [+++] so that it is never confused with
    list append. *)
Infix "+++" := String.append (at level 60, right associativity).

(* ================================================================== *)
(** ** The ECMAScript fragment *)
(* ================================================================== *)

Module JS.

(** Strings are sequences of code units.  The tokens the action searches for
    are ASCII, so searching byte strings and searching UTF-16 strings select
    the same occurrence. *)

Fixpoint take (n : nat) (s : string) : string :=
  match n, s with
  | S n', String c s' => String c (take n' s')
  | _, _ => EmptyString
  end.

Fixpoint drop (n : nat) (s : string) : string :=
  match n, s with
  | S n', String _ s' => drop n' s'
  | _, _ => s
  end.

(** [indexOf searchString s]: position of the first occurrence of
    [searchString] in [s], scanning from position 0. *)
Fixpoint indexOf_from (searchString s : string) (pos : nat) : option nat :=
  if prefix searchString s then Some pos
  else match s with
       | EmptyString => None
       | String _ s' => indexOf_from searchString s' (S pos)
       end.

Definition indexOf (searchString s : string) : option nat :=
  indexOf_from searchString s 0.

(** [GetSubstitution] for a string pattern: there are no captures, so of the
    dollar forms only [$$], [$&], [$`] and [$'] are expanded; a dollar
    followed by anything else stands for itself. *)
Fixpoint GetSubstitution (matched preceding following replacement : string)
  : string :=
  match replacement with
  | EmptyString => EmptyString
  | String "$" (String "$" r) =>
      String "$" (GetSubstitution matched preceding following r)
  | String "$" (String "&" r) =>
      matched +++ GetSubstitution matched preceding following r
  | String "$" (String "`" r) =>
      preceding +++ GetSubstitution matched preceding following r
  | String "$" (String "'" r) =>
      following +++ GetSubstitution matched preceding following r
  | String c r => String c (GetSubstitution matched preceding following r)
  end.

(** [s.replace(searchString, replaceValue)] where both arguments are strings:
    only the first occurrence is replaced. *)
Definition String_replace (s searchString replaceValue : string) : string :=
  match indexOf searchString s with
  | None => s
  | Some pos =>
      let preceding := take pos s in
      let following := drop (pos + String.length searchString) s in
      preceding
        +++ GetSubstitution searchString preceding following replaceValue
        +++ following
  end.

(** Printing of an integral Number (below 1e21, where the decimal expansion
    is used). *)
Definition Number_toString (n : Z) : string :=
  NilZero.string_of_int (Z.to_int n).

(** [Math.round(Math.abs(n / d))] for integers [n] and [d > 0].
    [Math.round] rounds to the nearest integer, a tie going up.  The
    quotient is computed in floating point, but [k + 1/2] is representable
    and rounding to nearest is monotone, so the floating-point quotient is
    on the same side of every [k + 1/2] as the exact one. *)
Definition Math_round_abs_div (n d : Z) : Z :=
  (2 * Z.abs n + d) / (2 * d).

(** [Math.ceil(n / d)] for integers [n] and [d > 0]. *)
Definition Math_ceil_div (n d : Z) : Z := - ((- n) / d).

End JS.

(* ================================================================== *)
(** ** Data exchanged with the tracker *)
(* ================================================================== *)

Record User := { login : string }.

(** The listing endpoint returns pull requests too; they carry a
    [pull_request] object, plain issues do not. *)
Record PullRequest := { pr_url : string }.

(** [updated_at] is the instant [new Date(issue.updated_at)] denotes, in
    milliseconds since the epoch.  [user] is nullable in the tracker's
    schema.  Instants, numbers of days and issue numbers are integral and
    far below 2^53, where the arithmetic of JavaScript Numbers is exact:
    they are integers here. *)
Record Issue := {
  number : Z;
  updated_at : Z;
  user : option User;
  labels : list string;
  pull_request : option PullRequest
}.

Record Options := {
  repoOwner : string;
  repoName : string;
  staleAfter : Z;
  closeAfter : Z;
  staleComment : string;
  closeComment : string;
  staleLabel : string;
  showLogs : bool
}.

(** Parameter objects of the four client operations the action uses. *)
Record RepoParams := { rp_owner : string; rp_repo : string }.

Record ListParams := {
  lp_owner : string;
  lp_repo : string;
  lp_state : string;
  lp_sort : string;
  lp_direction : string;
  lp_per_page : Z;
  lp_page : Z
}.

Record CommentParams := {
  cp_owner : string;
  cp_repo : string;
  cp_issue_number : Z;
  cp_body : string
}.

(** [_updateIssue] sets either [state] or [labels], never both. *)
Record UpdateParams := {
  up_owner : string;
  up_repo : string;
  up_issue_number : Z;
  up_state : option string;
  up_labels : option (list string)
}.

(** A request either resolves with its data or rejects with an error whose
    [message] is kept. *)
Inductive Response (A : Type) : Type :=
| Resolved (data : A)
| Rejected (message : string).
Arguments Resolved {A} data.
Arguments Rejected {A} message.

(** Values that can be thrown: the string literals [run] throws, and error
    objects. *)
Inductive Exn : Type :=
| Thrown (s : string)
| ErrorObject (name message : string).

(** [e.message]: undefined on a thrown string. *)
Definition Exn_message (e : Exn) : string :=
  match e with
  | Thrown _ => "undefined"
  | ErrorObject _ m => m
  end.

(** What a run does that can be observed from outside, in the order it
    happens: log lines, annotations, and the requests sent to the tracker
    together with their outcome. *)
Inductive Event : Type :=
| console_log (message : string)
| core_warning (e : Exn)
| core_error (message : string)
| repos_get (p : RepoParams) (r : Response Z)
| issues_listForRepo (p : ListParams) (r : Response (list Issue))
| issues_createComment (p : CommentParams) (r : Response unit)
| issues_update (p : UpdateParams) (r : Response unit).

(** The tracker client.  Each operation answers as a function of the request
    and of everything that happened before it, which covers every
    deterministic tracker, including one that fails on its n-th call.
    [kit_repos_get] resolves with [data.open_issues_count]. *)
Record Kit := {
  kit_repos_get : list Event -> RepoParams -> Response Z;
  kit_issues_listForRepo : list Event -> ListParams -> Response (list Issue);
  kit_issues_createComment : list Event -> CommentParams -> Response unit;
  kit_issues_update : list Event -> UpdateParams -> Response unit
}.

(** The process the action runs in: the variables of [process.env] it reads,
    the action inputs behind [core.getInput] (the empty string when an input
    is not supplied), and the clock: [clock n] is the value of the n-th
    [new Date()] of the run. *)
Record Host := {
  GITHUB_REPOSITORY : string;
  GH_ACTION_LOCAL_TEST : option string;
  core_getInput : string -> string;
  clock : nat -> Z
}.

(** [const dryRun = !!process.env.GH_ACTION_LOCAL_TEST] *)
Definition dryRun (host : Host) : bool :=
  match GH_ACTION_LOCAL_TEST host with
  | None => false
  | Some s => negb (String.eqb s "")
  end.

(* ================================================================== *)
(** ** The monad of the asynchronous methods *)
(* ================================================================== *)

Record World := {
  trace : list Event;
  clock_reads : nat
}.

Inductive Completion (A : Type) : Type :=
| Normal (v : A)
| Throw (e : Exn).
Arguments Normal {A} v.
Arguments Throw {A} e.

Definition M (A : Type) : Type := World -> Completion A * World.

Definition ret {A} (v : A) : M A := fun w => (Normal v, w).

Definition bind {A B} (m : M A) (k : A -> M B) : M B :=
  fun w =>
    match m w with
    | (Normal v, w') => k v w'
    | (Throw e, w') => (Throw e, w')
    end.

Definition throw {A} (e : Exn) : M A := fun w => (Throw e, w).

Definition try_catch {A} (body : M A) (handler : Exn -> M A) : M A :=
  fun w =>
    match body w with
    | (Normal v, w') => (Normal v, w')
    | (Throw e, w') => handler e w'
    end.

Declare Scope js_scope.
Delimit Scope js_scope with js.
Notation "x <- m ;; k" := (bind m (fun x => k))
  (at level 100, m at next level, right associativity) : js_scope.
Notation "m ;; k" := (bind m (fun _ => k))
  (at level 100, right associativity) : js_scope.
Local Open Scope js_scope.

Definition emit (e : Event) : M unit :=
  fun w => (Normal tt, {| trace := trace w ++ [e]; clock_reads := clock_reads w |}).

(** A request: the client answers from the history, the request and its
    outcome are recorded, and a rejection is thrown at the [await]. *)
Definition request {P A} (answer : list Event -> P -> Response A)
    (record : P -> Response A -> Event) (p : P) : M A :=
  fun w =>
    let r := answer (trace w) p in
    let w' := {| trace := trace w ++ [record p r];
                 clock_reads := clock_reads w |} in
    match r with
    | Resolved data => (Normal data, w')
    | Rejected message => (Throw (ErrorObject "HttpError" message), w')
    end.

(** [for (const x of l) body], threading the local variables the body
    assigns. *)
Fixpoint for_of {A S} (l : list A) (body : A -> S -> M S) (s : S) : M S :=
  match l with
  | [] => ret s
  | x :: l' => s' <- body x s ;; for_of l' body s'
  end.

(** [l.filter(f)] for a callback with effects (here: reading the clock). *)
Fixpoint Array_filter {A} (f : A -> M bool) (l : list A) : M (list A) :=
  match l with
  | [] => ret []
  | x :: l' =>
      keep <- f x ;;
      rest <- Array_filter f l' ;;
      ret (if keep then x :: rest else rest)
  end.

(** A promise is modelled by the completion it settles with.  Calling an
    async function without awaiting it starts its request at once; the
    outcome stays in the promise and nothing is thrown at the call. *)
Definition Promise (A : Type) : Type := Completion A.

Definition start {A} (m : M A) : M (Promise A) :=
  fun w => let (c, w') := m w in (Normal c, w').

Definition await {A} (p : Promise A) : M A := fun w => (p, w).

(** [Promise.all]: the values in order when every promise is fulfilled, a
    rejection otherwise.  When more than one promise rejects, the one that
    settles first wins in JavaScript; the model takes the one of the lowest
    page, which only affects the text of the logged error. *)
Fixpoint Promise_all {A} (ps : list (Promise A)) : Promise (list A) :=
  match ps with
  | [] => Normal []
  | Throw e :: _ => Throw e
  | Normal v :: ps' =>
      match Promise_all ps' with
      | Normal vs => Normal (v :: vs)
      | Throw e => Throw e
      end
  end.

(** [for (let i = 1; i <= n; i++)] visits these values. *)
Definition range_from_1 (n : Z) : list Z :=
  map Z.of_nat (seq 1 (Z.to_nat n)).

(* ================================================================== *)
(** ** [class ActionIssueTriage] *)
(* ================================================================== *)

(** [constructor(kit, options)] *)
Record ActionIssueTriage := {
  kit : Kit;
  opts : Options
}.

(** The two local counters of [run]. *)
Record Counters := {
  markedStale : nat;
  closed : nat
}.

Definition oneDay : Z := 24 * 60 * 60 * 1000.

(** [new Date(date) < now - days * 24 * 60 * 60 * 1000] *)
Definition older_at (now date days : Z) : bool :=
  date <? now - days * 24 * 60 * 60 * 1000.

(** [Math.round(Math.abs((now - new Date(dayCreated)) / oneDay))] *)
Definition days_since_at (now dayCreated : Z) : Z :=
  JS.Math_round_abs_div (now - dayCreated) oneDay.

(** [_isIssue]: pull requests are also returned as issues. *)
Definition _isIssue (issue : Issue) : bool :=
  match pull_request issue with
  | None => true
  | Some _ => false
  end.

Section Methods.

Context (host : Host) (this : ActionIssueTriage).

Definition new_Date : M Z :=
  fun w => (Normal (clock host (clock_reads w)),
            {| trace := trace w; clock_reads := S (clock_reads w) |}).

Definition _log (message : string) : M unit :=
  if showLogs (opts this) then emit (console_log message) else ret tt.

Definition _isOlderThan (date days : Z) : M bool :=
  now <- new_Date ;;
  ret (older_at now date days).

Definition _getDaysSince (dayCreated : Z) : M Z :=
  now <- new_Date ;;
  ret (days_since_at now dayCreated).

Definition _filterOldIssues (issues : list Issue) : M (list Issue) :=
  Array_filter
    (fun issue => _isOlderThan (updated_at issue) (staleAfter (opts this)))
    issues.

(** [issue.user.login] throws a TypeError when [user] is null (the text of
    the message is the engine's). *)
Definition issue_user_login (issue : Issue) : M string :=
  match user issue with
  | Some u => ret (login u)
  | None =>
      throw (ErrorObject "TypeError" "Cannot read property 'login' of null")
  end.

Definition _generateMessage (issue : Issue) (messageTemplate : string)
  : M string :=
  days <- _getDaysSince (updated_at issue) ;;
  let message :=
    JS.String_replace messageTemplate "%DAYS_OLD%" (JS.Number_toString days) in
  author <- issue_user_login issue ;;
  ret (JS.String_replace message "%AUTHOR%" author).

Definition issuesPerPage : Z := 100.

Definition getIssuesForPage (page : Z) : M (list Issue) :=
  issuesResponse <-
    request (kit_issues_listForRepo (kit this)) issues_listForRepo
      {| lp_owner := repoOwner (opts this);
         lp_repo := repoName (opts this);
         lp_state := "open";
         lp_sort := "updated";
         lp_direction := "desc";
         lp_per_page := issuesPerPage;
         lp_page := page |} ;;
  ret (filter _isIssue issuesResponse).

(** The loop that starts one listing request per page and collects the
    promises. *)
Fixpoint start_pages (pages : list Z) : M (list (Promise (list Issue))) :=
  match pages with
  | [] => ret []
  | i :: pages' =>
      p <- start (getIssuesForPage i) ;;
      ps <- start_pages pages' ;;
      ret (p :: ps)
  end.

Definition _getAllIssues : M (list Issue) :=
  try_catch
    (totalIssues <-
       request (kit_repos_get (kit this)) repos_get
         {| rp_owner := repoOwner (opts this);
            rp_repo := repoName (opts this) |} ;;
     let pageCount := JS.Math_ceil_div totalIssues issuesPerPage in
     issuesPage <- start_pages (range_from_1 pageCount) ;;
     response <- await (Promise_all issuesPage) ;;
     ret (List.concat response))
    (fun e =>
       emit (core_error ("Error while fetching issues: " +++ Exn_message e)) ;;
       ret []).

(** The [return true] after the [try] is folded into its last statement:
    nothing between the two can throw. *)
Definition _postComment (issue : Issue) (commentTemplate : string) : M bool :=
  message <- _generateMessage issue commentTemplate ;;
  try_catch
    (let params :=
       {| cp_owner := repoOwner (opts this);
          cp_repo := repoName (opts this);
          cp_issue_number := number issue;
          cp_body := message |} in
     (if negb (dryRun host)
      then request (kit_issues_createComment (kit this))
             issues_createComment params
      else ret tt) ;;
     ret true)
    (fun e =>
       emit (core_error ("Could not post a comment in issue #"
                         +++ JS.Number_toString (number issue) +++ ": "
                         +++ Exn_message e)) ;;
       ret false).

Definition _updateIssue (issue : Issue) (closeIssue : bool) : M bool :=
  let params :=
    {| up_owner := repoOwner (opts this);
       up_repo := repoName (opts this);
       up_issue_number := number issue;
       up_state := if closeIssue then Some "closed"%string else None;
       up_labels := if closeIssue then None
                    else Some (labels issue ++ [staleLabel (opts this)]) |} in
  try_catch
    ((if negb (dryRun host)
      then request (kit_issues_update (kit this)) issues_update params
      else ret tt) ;;
     ret true)
    (fun e =>
       emit (core_error ("Could not "
                         +++ (if closeIssue then "close" else "update")
                         +++ " issue #" +++ JS.Number_toString (number issue)
                         +++ ": " +++ Exn_message e)) ;;
       ret false).

(** The body of the [for] loop of [run], with its [try]/[catch]. *)
Definition triage_issue (issue : Issue) (c : Counters) : M Counters :=
  try_catch
    (isClosingDown <-
       (if closeAfter (opts this) >? staleAfter (opts this)
        then _isOlderThan (updated_at issue) (closeAfter (opts this))
        else ret false) ;;
     postSuccess <-
       _postComment issue
         (if isClosingDown then closeComment (opts this)
          else staleComment (opts this)) ;;
     if postSuccess then
       updateSuccess <- _updateIssue issue isClosingDown ;;
       if updateSuccess then
         if isClosingDown
         then ret {| markedStale := markedStale c; closed := S (closed c) |}
         else ret {| markedStale := S (markedStale c); closed := closed c |}
       else
         throw (Thrown ("Could not update issue #"
                        +++ JS.Number_toString (number issue) +++ "."))
     else
       throw (Thrown ("Could not post comment for #"
                      +++ JS.Number_toString (number issue) +++ ".")))
    (fun e => emit (core_warning e) ;; ret c).

Definition triage_loop (staleIssues : list Issue) : M Counters :=
  for_of staleIssues triage_issue {| markedStale := 0; closed := 0 |}.

(** The log lines at the end of [run]. *)
Definition report (c : Counters) : M unit :=
  (if Nat.eqb (markedStale c) 0 then ret tt
   else _log ("Issues marked as stale: "
              +++ JS.Number_toString (Z.of_nat (markedStale c)))) ;;
  (if Nat.eqb (closed c) 0 then ret tt
   else _log ("Issues closed down: "
              +++ JS.Number_toString (Z.of_nat (closed c)))) ;;
  (if Nat.eqb (markedStale c) 0 && Nat.eqb (closed c) 0
   then _log "No old issues found, sweet!"
   else ret tt).

(** [run] has no [return] with a value: it completes with [undefined],
    modelled by [tt]. *)
Definition run : M unit :=
  allIssues <- _getAllIssues ;;
  if Nat.eqb (List.length allIssues) 0 then
    _log ("No issues found for " +++ repoOwner (opts this) +++ "/"
          +++ repoName (opts this))
  else
    _log ("Total issues for " +++ repoOwner (opts this) +++ "/"
          +++ repoName (opts this) +++ ": "
          +++ JS.Number_toString (Z.of_nat (List.length allIssues))) ;;
    staleIssues <- _filterOldIssues allIssues ;;
    c <- triage_loop staleIssues ;;
    report c.

End Methods.

(* ================================================================== *)
(** ** The start-up script *)
(* ================================================================== *)

Module Index.

Definition LF : string := String "010"%char EmptyString.

(** [value || fallback] on strings: the empty string is the only falsy
    one. *)
Definition or_else (value fallback : string) : string :=
  if String.eqb value "" then fallback else value.

Fixpoint split (separator : ascii) (s : string) : list string :=
  match s with
  | EmptyString => [EmptyString]
  | String c s' =>
      if Ascii.eqb c separator then EmptyString :: split separator s'
      else match split separator s' with
           | h :: t => String c h :: t
           | [] => [String c EmptyString]
           end
  end.

(** *** Unary [+] on a string

    [+s] is [StringToNumber(s)]: white space is trimmed from both ends; the
    empty string is 0; what is left must be a [StrNumericLiteral], that is a
    binary, octal or hexadecimal integer ([0b], [0o], [0x], unsigned), or a
    decimal literal with an optional sign, an optional fraction and an
    optional exponent; every other string is NaN.

    The numbers of days of [Options] are integers, and a Number holds every
    integer of magnitude at most 2 ^ 53 exactly, where the conversion does
    not round.  [ToNumber s] is [Some n] when the literal denotes such an
    integer [n] ([-0] counts as 0).  It is [None] when [+s] is no such
    integer or is the rounding of another value: a fraction, a magnitude
    above 2 ^ 53, [Infinity], NaN.  Those inputs are outside this
    development. *)

(** The white space of [StrWhiteSpaceChar] among the code units below 256:
    TAB, LF, VT, FF, CR, SP and NBSP. *)
Definition is_white_space (c : ascii) : bool :=
  existsb (Nat.eqb (nat_of_ascii c)) [9; 10; 11; 12; 13; 32; 160]%nat.

Fixpoint trim_start (s : string) : string :=
  match s with
  | EmptyString => EmptyString
  | String c s' => if is_white_space c then trim_start s' else s
  end.

Fixpoint trim_end (s : string) : string :=
  match s with
  | EmptyString => EmptyString
  | String c s' =>
      match trim_end s' with
      | EmptyString =>
          if is_white_space c then EmptyString else String c EmptyString
      | t => String c t
      end
  end.

(** The value of [c] as a digit in [radix]: [0-9], then [a-z] or [A-Z] from
    ten on. *)
Definition digit_value (radix : Z) (c : ascii) : option Z :=
  let n := Z.of_nat (nat_of_ascii c) in
  let v := if (48 <=? n) && (n <=? 57) then n - 48
           else if (97 <=? n) && (n <=? 122) then n - 87
           else if (65 <=? n) && (n <=? 90) then n - 55
           else radix in
  if v <? radix then Some v else None.

(** Reads the longest run of digits at the head of [s]: the number they
    denote after [acc], how many were read after [count], and the rest. *)
Fixpoint read_digits (radix : Z) (s : string) (acc : Z) (count : nat)
  : Z * nat * string :=
  match s with
  | EmptyString => (acc, count, s)
  | String c s' =>
      match digit_value radix c with
      | Some d => read_digits radix s' (radix * acc + d) (S count)
      | None => (acc, count, s)
      end
  end.

Definition safe_integer (v : Z) : option Z :=
  if Z.abs v <=? 2 ^ 53 then Some v else None.

(** [m * 10 ^ e] for [0 <= m], when it is an integer of magnitude at most
    2 ^ 53.  The powers of ten that decide nothing are not computed: from
    10 ^ 17 on the product of a non-zero [m] is above 2 ^ 53, and a power
    of ten above [m] does not divide it. *)
Definition scale (m e : Z) : option Z :=
  if m =? 0 then Some 0
  else if 0 <=? e then
    if e <=? 16 then safe_integer (m * 10 ^ e) else None
  else if Z.log2 m <? - e then None
  else if m mod 10 ^ (- e) =? 0 then safe_integer (m / 10 ^ (- e))
  else None.

(** [SignedInteger] of an [ExponentPart]. *)
Definition SignedInteger (s : string) : option Z :=
  let '(negative, digits) :=
    match s with
    | String "-" r => (true, r)
    | String "+" r => (false, r)
    | _ => (false, s)
    end in
  match read_digits 10 digits 0 0 with
  | (e, S _, EmptyString) => Some (if negative then - e else e)
  | _ => None
  end.

(** [StrUnsignedDecimalLiteral]: digits, then optionally a dot and digits,
    with at least one digit in all, then optionally [e] or [E] and a signed
    integer.  ([Infinity] has no digit: it is not an integer.) *)
Definition StrUnsignedDecimalLiteral (s : string) : option Z :=
  let '(i, ni, r1) := read_digits 10 s 0 0 in
  let '(m, nf, r2) :=
    match r1 with
    | String "." r => read_digits 10 r i 0
    | _ => (i, 0%nat, r1)
    end in
  if (ni + nf =? 0)%nat then None
  else
    match r2 with
    | EmptyString => scale m (- Z.of_nat nf)
    | String c r3 =>
        if Ascii.eqb c "e" || Ascii.eqb c "E" then
          match SignedInteger r3 with
          | Some e => scale m (e - Z.of_nat nf)
          | None => None
          end
        else None
    end.

Definition StrDecimalLiteral (s : string) : option Z :=
  match s with
  | String "-" r => option_map Z.opp (StrUnsignedDecimalLiteral r)
  | String "+" r => StrUnsignedDecimalLiteral r
  | _ => StrUnsignedDecimalLiteral s
  end.

(** The digits of a [NonDecimalIntegerLiteral], after its prefix. *)
Definition NonDecimalIntegerLiteral (radix : Z) (digits : string)
  : option Z :=
  match read_digits radix digits 0 0 with
  | (v, S _, EmptyString) => safe_integer v
  | _ => None
  end.

Definition StrNumericLiteral (s : string) : option Z :=
  match s with
  | String "0" (String c r) =>
      if Ascii.eqb c "x" || Ascii.eqb c "X" then NonDecimalIntegerLiteral 16 r
      else if Ascii.eqb c "o" || Ascii.eqb c "O"
      then NonDecimalIntegerLiteral 8 r
      else if Ascii.eqb c "b" || Ascii.eqb c "B"
      then NonDecimalIntegerLiteral 2 r
      else StrDecimalLiteral s
  | _ => StrDecimalLiteral s
  end.

Definition ToNumber (s : string) : option Z :=
  match trim_end (trim_start s) with
  | EmptyString => Some 0
  | literal => StrNumericLiteral literal
  end.

Definition staleCommentDefault : string :=
  " Beep Boop  " +++ LF +++ LF
  +++ "This issue was last updated %DAYS_OLD% days ago! Marking as STALE."
  +++ LF +++ " CC @%AUTHOR%".

Definition closeCommentDefault : string :=
  " Beep Boop  " +++ LF +++ LF
  +++ "This issue was inactive for %DAYS_OLD% days, so closing it down. If you have something to add, please feel free to reopen."
  +++ LF +++ LF +++ "CC @%AUTHOR%".

Section Script.

Context (host : Host).

(** [core.getInput('staleAfter') || 30], then [+staleAfter] *)
Definition staleAfter : option Z :=
  if String.eqb (core_getInput host "staleAfter") "" then Some 30
  else ToNumber (core_getInput host "staleAfter").

Definition closeAfter : option Z :=
  if String.eqb (core_getInput host "closeAfter") "" then Some 0
  else ToNumber (core_getInput host "closeAfter").

Definition staleComment : string :=
  or_else (core_getInput host "staleComment") staleCommentDefault.

Definition closeComment : string :=
  or_else (core_getInput host "staleComment") closeCommentDefault.

Definition staleLabel : string :=
  or_else (core_getInput host "staleLabel") "STALE".

Definition showLogs : string :=
  or_else (core_getInput host "showLogs") "true".

(** The [options] object; [None] when [GITHUB_REPOSITORY] has no slash or a
    numeric input is outside [ToNumber]. *)
Definition options : option Options :=
  match split "/" (GITHUB_REPOSITORY host), staleAfter, closeAfter with
  | repoOwner :: repoName :: _, Some staleAfter, Some closeAfter =>
      Some (Build_Options repoOwner repoName staleAfter closeAfter
              staleComment closeComment staleLabel
              (String.eqb showLogs "true"))
  | _, _, _ => None
  end.

(** [new ActionIssueTriage(new github.GitHub(GH_TOKEN), options).run()],
    the client being given. *)
Definition main (client : Kit) : option (M unit) :=
  match options with
  | Some o => Some (run host {| kit := client; opts := o |})
  | None => None
  end.

End Script.

End Index.

(* ================================================================== *)
(** ** A repository with a fixed list of open items *)
(* ================================================================== *)

(** Pagination of the listing endpoint: page [p] of size [s] holds the items
    of rank [(p - 1) * s] to [p * s - 1]. *)
Definition page_of (items : list Issue) (p : ListParams) : list Issue :=
  firstn (Z.to_nat (lp_per_page p))
    (skipn (Z.to_nat ((lp_page p - 1) * lp_per_page p)) items).

(* ================================================================== *)
(** ** A worked run *)
(* ================================================================== *)

Module Scenario.

Definition day (n : Z) : Z := n * oneDay.

(** The run takes place at day 1000. *)
Definition now : Z := day 1000.

Definition issue (n age : Z) (author : string) : Issue :=
  {| number := n; updated_at := now - day age;
     user := Some {| login := author |}; labels := [];
     pull_request := None |}.

Definition issues : list Issue :=
  [issue 1 10 "carol"; issue 2 40 "alice"; issue 3 70 "bob"].

(** A tracker that serves [items] in pages and accepts every comment and
    update. *)
Definition serving (items : list Issue) : Kit :=
  {| kit_repos_get := fun _ _ => Resolved (Z.of_nat (List.length items));
     kit_issues_listForRepo := fun _ p => Resolved (page_of items p);
     kit_issues_createComment := fun _ _ => Resolved tt;
     kit_issues_update := fun _ _ => Resolved tt |}.

Definition inputs (l : list (string * string)) (name : string) : string :=
  match find (fun kv => String.eqb (fst kv) name) l with
  | Some kv => snd kv
  | None => EmptyString
  end.

Definition host (l : list (string * string)) (local_test : option string)
  : Host :=
  {| GITHUB_REPOSITORY := "krizzu/issue-triage-action";
     GH_ACTION_LOCAL_TEST := local_test;
     core_getInput := inputs l;
     clock := fun _ => now |}.

Definition world0 : World := {| trace := []; clock_reads := 0 |}.

Definition live : Host :=
  host [("staleAfter", "30"); ("closeAfter", "60");
        ("staleComment", "%DAYS_OLD% days, @%AUTHOR%");
        ("showLogs", "true")]%string None.

(** The same process with the local-test variable set. *)
Definition dry : Host :=
  host [("staleAfter", "30"); ("closeAfter", "60");
        ("staleComment", "%DAYS_OLD% days, @%AUTHOR%");
        ("showLogs", "true")]%string (Some "1"%string).

(** A tracker that serves [items] but rejects every comment. *)
Definition rejecting (items : list Issue) : Kit :=
  {| kit_repos_get := fun _ _ => Resolved (Z.of_nat (List.length items));
     kit_issues_listForRepo := fun _ p => Resolved (page_of items p);
     kit_issues_createComment := fun _ _ => Rejected "Forbidden";
     kit_issues_update := fun _ _ => Resolved tt |}.

(** A tracker whose repository lookup fails. *)
Definition unreachable : Kit :=
  {| kit_repos_get := fun _ _ => Rejected "Not Found";
     kit_issues_listForRepo := fun _ _ => Resolved [];
     kit_issues_createComment := fun _ _ => Resolved tt;
     kit_issues_update := fun _ _ => Resolved tt |}.

(** The options the start-up script builds for [live]. *)
Definition options : Options :=
  {| repoOwner := "krizzu";
     repoName := "issue-triage-action";
     staleAfter := 30;
     closeAfter := 60;
     staleComment := "%DAYS_OLD% days, @%AUTHOR%";
     closeComment := "%DAYS_OLD% days, @%AUTHOR%";
     staleLabel := "STALE";
     showLogs := true |}.

Definition action : ActionIssueTriage :=
  {| kit := serving issues; opts := options |}.

Definition refused : ActionIssueTriage :=
  {| kit := rejecting issues; opts := options |}.

Definition lost : ActionIssueTriage :=
  {| kit := unreachable; opts := options |}.

(** What the fetch of [lost] leaves in the trace. *)
Definition lost_events : list Event :=
  [repos_get {| rp_owner := "krizzu"; rp_repo := "issue-triage-action" |}
     (Rejected "Not Found");
   core_error "Error while fetching issues: Not Found"].

(** A process whose workflow sets [closeComment] and leaves [staleComment]
    to its default. *)
Definition customised : Host :=
  host [("staleAfter", "30"); ("closeAfter", "60");
        ("closeComment", "Closing, @%AUTHOR%")]%string None.

(** A repository with 250 open items of which every fifth is a pull
    request. *)
Definition item (k : nat) : Issue :=
  {| number := Z.of_nat k; updated_at := now - day 1;
     user := Some {| login := "erin" |}; labels := [];
     pull_request := if Nat.eqb (Nat.modulo k 5) 0
                     then Some {| pr_url := "pull" |} else None |}.

Definition crowd : list Issue := map item (seq 1 250).

Definition crowded : ActionIssueTriage :=
  {| kit := serving crowd; opts := options |}.

(** A tracker that rejects the comments on issue 2 only. *)
Definition picky : ActionIssueTriage :=
  {| kit :=
       {| kit_repos_get := fun _ _ => Resolved 3;
          kit_issues_listForRepo := fun _ p => Resolved (page_of issues p);
          kit_issues_createComment :=
            fun _ p => if cp_issue_number p =? 2 then Rejected "Locked"
                       else Resolved tt;
          kit_issues_update := fun _ _ => Resolved tt |};
     opts := options |}.

(** A tracker that serves [crowd] but fails on its second page. *)
Definition flaky : ActionIssueTriage :=
  {| kit :=
       {| kit_repos_get := fun _ _ => Resolved 250;
          kit_issues_listForRepo :=
            fun _ p => if lp_page p =? 2 then Rejected "Bad Gateway"
                       else Resolved (page_of crowd p);
          kit_issues_createComment := fun _ _ => Resolved tt;
          kit_issues_update := fun _ _ => Resolved tt |};
     opts := options |}.

(** The two issues of [issues] that are older than 30 days. *)
Definition candidates : list Issue :=
  [issue 2 40 "alice"; issue 3 70 "bob"].

(** An issue that already carries the stale label. *)
Definition labelled : Issue :=
  {| number := 7; updated_at := now - day 40;
     user := Some {| login := "dave" |}; labels := ["bug"; "STALE"]%string;
     pull_request := None |}.

(** What processing [labelled] sends in the live run. *)
Definition labelled_update : UpdateParams :=
  {| up_owner := "krizzu"; up_repo := "issue-triage-action";
     up_issue_number := 7; up_state := None;
     up_labels := Some ["bug"; "STALE"; "STALE"]%string |}.

Definition labelled_events : list Event :=
  [issues_createComment
     {| cp_owner := "krizzu"; cp_repo := "issue-triage-action";
        cp_issue_number := 7; cp_body := "40 days, @dave" |} (Resolved tt);
   issues_update labelled_update (Resolved tt)].

End Scenario.

(* ================================================================== *)
(** ** Vocabulary of the properties *)
(* ================================================================== *)

(** The two readings of the specification's "first occurrence": [token]
    occurs in [s] between [pre] and [post] and nowhere further left; or it
    does not occur at all. *)
Definition occurs_first (token s pre post : string) : Prop :=
  s = pre +++ token +++ post /\
  forall pre' post', s = pre' +++ token +++ post' ->
                     (String.length pre <= String.length pre')%nat.

Definition absent (token s : string) : Prop :=
  forall pre post, s <> pre +++ token +++ post.

(** [first_replaced token value s s']: [s'] is [s] with the first occurrence
    of [token], and only that one, replaced by [value]. *)
Inductive first_replaced (token value s : string) : string -> Prop :=
| first_replaced_here pre post :
    occurs_first token s pre post ->
    first_replaced token value s (pre +++ value +++ post)
| first_replaced_absent :
    absent token s ->
    first_replaced token value s s.

(** [has_dollar s]: [s] contains a dollar sign, the only character
    [GetSubstitution] gives a meaning to. *)
Fixpoint has_dollar (s : string) : bool :=
  match s with
  | EmptyString => false
  | String c s' => Ascii.eqb c "$" || has_dollar s'
  end.

(** [advance w evs k]: the world [w] after the events [evs] and [k] more
    readings of the clock. *)
Definition advance (w : World) (evs : list Event) (k : nat) : World :=
  {| trace := trace w ++ evs; clock_reads := clock_reads w + k |}.

(* ================================================================== *)
(** ** One candidate: what the loop body does *)
(* ================================================================== *)

Section Candidate.

Context (host : Host) (this : ActionIssueTriage).

(** Readings of the clock the close decision costs: the comparison with
    [closeAfter] is only evaluated when [closeAfter > staleAfter]. *)
Definition decision_reads : nat :=
  if closeAfter (opts this) >? staleAfter (opts this) then 1%nat else 0%nat.

(** [isClosingDown] for an issue whose processing starts at reading [n]. *)
Definition closing_at (n : nat) (issue : Issue) : bool :=
  if closeAfter (opts this) >? staleAfter (opts this)
  then older_at (clock host n) (updated_at issue) (closeAfter (opts this))
  else false.

(** The message of [_generateMessage] at the instant [now]. *)
Definition render (now : Z) (template author : string) (issue : Issue)
  : string :=
  JS.String_replace
    (JS.String_replace template "%DAYS_OLD%"
       (JS.Number_toString (days_since_at now (updated_at issue))))
    "%AUTHOR%" author.

(** The request [_postComment] sends when the clock reads [now]. *)
Definition post_request (now : Z) (issue : Issue) (template author : string)
  : CommentParams :=
  {| cp_owner := repoOwner (opts this);
     cp_repo := repoName (opts this);
     cp_issue_number := number issue;
     cp_body := render now template author issue |}.

(** The comment request of a candidate whose processing starts at reading
    [n]: the message is dated by the reading that follows the decision. *)
Definition comment_request (n : nat) (issue : Issue) (author : string)
  : CommentParams :=
  post_request (clock host (n + decision_reads)) issue
    (if closing_at n issue then closeComment (opts this)
     else staleComment (opts this))
    author.

Definition update_request (issue : Issue) (closeIssue : bool) : UpdateParams :=
  {| up_owner := repoOwner (opts this);
     up_repo := repoName (opts this);
     up_issue_number := number issue;
     up_state := if closeIssue then Some "closed"%string else None;
     up_labels := if closeIssue then None
                  else Some (labels issue ++ [staleLabel (opts this)]) |}.

(** The four ways the processing of one candidate can end. *)
Inductive Outcome : Type :=
| author_missing
| comment_failed (message : string)
| update_failed (message : string)
| transitioned.

Definition outcome (issue : Issue) (w : World) : Outcome :=
  match user issue with
  | None => author_missing
  | Some u =>
      if dryRun host then transitioned
      else
        let p := comment_request (clock_reads w) issue (login u) in
        match kit_issues_createComment (kit this) (trace w) p with
        | Rejected m => comment_failed m
        | Resolved _ =>
            let q := update_request issue (closing_at (clock_reads w) issue) in
            match kit_issues_update (kit this)
                    (trace w ++ [issues_createComment p (Resolved tt)]) q with
            | Rejected m => update_failed m
            | Resolved _ => transitioned
            end
        end
  end.

Definition post_warning (issue : Issue) : Event :=
  core_warning (Thrown ("Could not post comment for #"
                        +++ JS.Number_toString (number issue) +++ ".")).

Definition update_warning (issue : Issue) : Event :=
  core_warning (Thrown ("Could not update issue #"
                        +++ JS.Number_toString (number issue) +++ ".")).

Definition post_error (issue : Issue) (m : string) : Event :=
  core_error ("Could not post a comment in issue #"
              +++ JS.Number_toString (number issue) +++ ": " +++ m).

Definition update_error (issue : Issue) (closeIssue : bool) (m : string)
  : Event :=
  core_error ("Could not " +++ (if closeIssue then "close" else "update")
              +++ " issue #" +++ JS.Number_toString (number issue)
              +++ ": " +++ m).

(** The events of one candidate, by outcome.  In a dry run the two requests
    are not sent, so they leave no event. *)
Definition outcome_events (issue : Issue) (w : World) : list Event :=
  let n := clock_reads w in
  match user issue with
  | None =>
      [core_warning
         (ErrorObject "TypeError" "Cannot read property 'login' of null")]
  | Some u =>
      let p := comment_request n issue (login u) in
      let q := update_request issue (closing_at n issue) in
      match outcome issue w with
      | author_missing => []
      | comment_failed m =>
          [issues_createComment p (Rejected m); post_error issue m;
           post_warning issue]
      | update_failed m =>
          [issues_createComment p (Resolved tt); issues_update q (Rejected m);
           update_error issue (closing_at n issue) m; update_warning issue]
      | transitioned =>
          if dryRun host then []
          else [issues_createComment p (Resolved tt);
                issues_update q (Resolved tt)]
      end
  end.

Definition count_one (closing : bool) (c : Counters) : Counters :=
  if closing
  then {| markedStale := markedStale c; closed := S (closed c) |}
  else {| markedStale := S (markedStale c); closed := closed c |}.

Definition outcome_counters (issue : Issue) (c : Counters) (w : World)
  : Counters :=
  match outcome issue w with
  | transitioned => count_one (closing_at (clock_reads w) issue) c
  | _ => c
  end.

End Candidate.

(* ================================================================== *)
(** ** The loops in closed form *)
(* ================================================================== *)

Section ClosedForms.

Context (host : Host) (this : ActionIssueTriage).

(** What [_filterOldIssues] keeps when its first reading of the clock is the
    [n]-th: one reading per issue. *)
Fixpoint kept_from (n : nat) (issues : list Issue) : list Issue :=
  match issues with
  | [] => []
  | issue :: rest =>
      if older_at (clock host n) (updated_at issue) (staleAfter (opts this))
      then issue :: kept_from (S n) rest
      else kept_from (S n) rest
  end.

(** The world in which the candidate after [issue] is processed. *)
Definition after_candidate (issue : Issue) (w : World) : World :=
  advance w (outcome_events host this issue w) (decision_reads this + 1).

Fixpoint loop_events (l : list Issue) (w : World) : list Event :=
  match l with
  | [] => []
  | issue :: l' =>
      outcome_events host this issue w
        ++ loop_events l' (after_candidate issue w)
  end.

Fixpoint loop_counters (l : list Issue) (c : Counters) (w : World)
  : Counters :=
  match l with
  | [] => c
  | issue :: l' =>
      loop_counters l' (outcome_counters host this issue c w)
        (after_candidate issue w)
  end.

Definition repo_request : RepoParams :=
  {| rp_owner := repoOwner (opts this); rp_repo := repoName (opts this) |}.

Definition list_request (page : Z) : ListParams :=
  {| lp_owner := repoOwner (opts this);
     lp_repo := repoName (opts this);
     lp_state := "open";
     lp_sort := "updated";
     lp_direction := "desc";
     lp_per_page := issuesPerPage;
     lp_page := page |}.

(** The listing requests for [pages], sent one after the other from the
    history [h], with the answers of the tracker. *)
Fixpoint page_events (h : list Event) (pages : list Z) : list Event :=
  match pages with
  | [] => []
  | i :: pages' =>
      let e := issues_listForRepo (list_request i)
                 (kit_issues_listForRepo (kit this) h (list_request i)) in
      e :: page_events (h ++ [e]) pages'
  end.

(** The promises [getIssuesForPage] returns for these requests. *)
Fixpoint page_promises (h : list Event) (pages : list Z)
  : list (Promise (list Issue)) :=
  match pages with
  | [] => []
  | i :: pages' =>
      let r := kit_issues_listForRepo (kit this) h (list_request i) in
      match r with
      | Resolved data => Normal (filter _isIssue data)
      | Rejected m => Throw (ErrorObject "HttpError" m)
      end :: page_promises (h ++ [issues_listForRepo (list_request i) r]) pages'
  end.

(** Value and events of [_getAllIssues] in the world [w]. *)
Definition fetched (w : World) : list Issue :=
  match kit_repos_get (kit this) (trace w) repo_request with
  | Rejected _ => []
  | Resolved totalIssues =>
      match Promise_all
              (page_promises
                 (trace w ++ [repos_get repo_request (Resolved totalIssues)])
                 (range_from_1 (JS.Math_ceil_div totalIssues issuesPerPage)))
      with
      | Normal response => List.concat response
      | Throw _ => []
      end
  end.

Definition fetch_error (e : Exn) : Event :=
  core_error ("Error while fetching issues: " +++ Exn_message e).

Definition fetch_events (w : World) : list Event :=
  match kit_repos_get (kit this) (trace w) repo_request with
  | Rejected m =>
      [repos_get repo_request (Rejected m);
       fetch_error (ErrorObject "HttpError" m)]
  | Resolved totalIssues =>
      let h := trace w ++ [repos_get repo_request (Resolved totalIssues)] in
      let pages := range_from_1 (JS.Math_ceil_div totalIssues issuesPerPage) in
      repos_get repo_request (Resolved totalIssues)
        :: page_events h pages
        ++ match Promise_all (page_promises h pages) with
           | Normal _ => []
           | Throw e => [fetch_error e]
           end
  end.

(** What [_log message] prints. *)
Definition logged (message : string) : list Event :=
  if showLogs (opts this) then [console_log message] else [].

Definition report_events (c : Counters) : list Event :=
  (if Nat.eqb (markedStale c) 0 then []
   else logged ("Issues marked as stale: "
                +++ JS.Number_toString (Z.of_nat (markedStale c))))
  ++ (if Nat.eqb (closed c) 0 then []
      else logged ("Issues closed down: "
                   +++ JS.Number_toString (Z.of_nat (closed c))))
  ++ (if Nat.eqb (markedStale c) 0 && Nat.eqb (closed c) 0
      then logged "No old issues found, sweet!"
      else []).

Definition no_issues_message : string :=
  "No issues found for " +++ repoOwner (opts this) +++ "/"
  +++ repoName (opts this).

Definition total_message (n : nat) : string :=
  "Total issues for " +++ repoOwner (opts this) +++ "/"
  +++ repoName (opts this) +++ ": " +++ JS.Number_toString (Z.of_nat n).

(** The candidates of a run started in [w], the world in which the loop
    starts, and the counters when it ends. *)
Definition run_candidates (w : World) : list Issue :=
  kept_from (clock_reads w) (fetched w).

Definition loop_start (w : World) : World :=
  advance w
    (fetch_events w ++ logged (total_message (List.length (fetched w))))
    (List.length (fetched w)).

Definition run_counters (w : World) : Counters :=
  loop_counters (run_candidates w) {| markedStale := 0; closed := 0 |}
    (loop_start w).

Definition run_events (w : World) : list Event :=
  match fetched w with
  | [] => fetch_events w ++ logged no_issues_message
  | _ :: _ =>
      fetch_events w
        ++ logged (total_message (List.length (fetched w)))
        ++ loop_events (run_candidates w) (loop_start w)
        ++ report_events (run_counters w)
  end.

Definition run_reads (w : World) : nat :=
  match fetched w with
  | [] => 0
  | _ :: _ =>
      List.length (fetched w)
      + List.length (run_candidates w) * (decision_reads this + 1)
  end.

End ClosedForms.

(* ================================================================== *)
(** ** Vocabulary of the triage properties *)
(* ================================================================== *)

(** Requests that write to the tracker. *)
Definition is_write (e : Event) : bool :=
  match e with
  | issues_createComment _ _ | issues_update _ _ => true
  | _ => false
  end.

Definition is_console_log (e : Event) : bool :=
  match e with
  | console_log _ => true
  | _ => false
  end.

Definition is_warning (e : Event) : bool :=
  match e with
  | core_warning _ => true
  | _ => false
  end.

(** The age conditions of the specification, at the instant [now]: an issue
    is stale when its age strictly exceeds [staleAfter] days, and it is to be
    closed when closing is enabled ([closeAfter > staleAfter]) and its age
    strictly exceeds [closeAfter] days. *)
Definition stale_at (now : Z) (o : Options) (issue : Issue) : Prop :=
  now - updated_at issue > staleAfter o * oneDay.

Definition closes_at (now : Z) (o : Options) (issue : Issue) : Prop :=
  closeAfter o > staleAfter o
  /\ now - updated_at issue > closeAfter o * oneDay.

Definition stale_atb (now : Z) (o : Options) (issue : Issue) : bool :=
  staleAfter o * oneDay <? now - updated_at issue.

Definition closes_atb (now : Z) (o : Options) (issue : Issue) : bool :=
  (staleAfter o <? closeAfter o)
  && (closeAfter o * oneDay <? now - updated_at issue).

(** Issues counted by the loop, and warnings among some events. *)
Definition counted (c : Counters) : nat := (markedStale c + closed c)%nat.

Definition warnings (evs : list Event) : nat :=
  List.length (filter is_warning evs).

Definition not_write (e : Event) : bool := negb (is_write e).

(** The lines a run printed with [console.log]. *)
Definition console (evs : list Event) : list Event :=
  filter is_console_log evs.

(** Updates the tracker accepted: label updates and closes. *)
Definition is_accepted_label_update (e : Event) : bool :=
  match e with
  | issues_update q (Resolved _) =>
      match up_state q with
      | None => true
      | Some _ => false
      end
  | _ => false
  end.

Definition is_accepted_close (e : Event) : bool :=
  match e with
  | issues_update q (Resolved _) =>
      match up_state q with
      | None => false
      | Some _ => true
      end
  | _ => false
  end.

(** [run] up to the end of its loop, with the counters as result. *)
Definition run_until_report (host : Host) (this : ActionIssueTriage)
  : M Counters :=
  (allIssues <- _getAllIssues this ;;
   _log this (total_message this (List.length allIssues)) ;;
   staleIssues <- _filterOldIssues host this allIssues ;;
   triage_loop host this staleIssues)%js.

(** Reading the fetch off the trace: a rejected repository lookup or a
    rejected page listing; the listing requests sent, in order; the pages
    received, in order. *)
Definition fetch_failed (evs : list Event) : Prop :=
  (exists p m, In (repos_get p (Rejected m)) evs)
  \/ (exists p m, In (issues_listForRepo p (Rejected m)) evs).

Definition listing_requests (evs : list Event) : list ListParams :=
  flat_map (fun e => match e with
                     | issues_listForRepo p _ => [p]
                     | _ => []
                     end) evs.

Definition listed_pages (evs : list Event) : list (list Issue) :=
  flat_map (fun e => match e with
                     | issues_listForRepo _ (Resolved data) => [data]
                     | _ => []
                     end) evs.

(** An item of a listing is a pull request when it carries the
    [pull_request] field. *)
Definition is_pull_request (issue : Issue) : bool :=
  match pull_request issue with
  | Some _ => true
  | None => false
  end.

Definition without_pull_requests (items : list Issue) : list Issue :=
  filter (fun item => negb (is_pull_request item)) items.

(** A comment or an update that the tracker rejected. *)
Definition is_rejected_write (e : Event) : bool :=
  match e with
  | issues_createComment _ (Rejected _) | issues_update _ (Rejected _) => true
  | _ => false
  end.

(* ================================================================== *)
(** ** Vocabulary of the further properties *)
(* ================================================================== *)

Definition has_author (issue : Issue) : bool :=
  match user issue with
  | Some _ => true
  | None => false
  end.

Definition is_core_error (e : Event) : bool :=
  match e with
  | core_error _ => true
  | _ => false
  end.

(** The issue numbers of the comment requests among some events, in
    order. *)
Definition comment_numbers (evs : list Event) : list Z :=
  flat_map (fun e => match e with
                     | issues_createComment p _ => [cp_issue_number p]
                     | _ => []
                     end) evs.

(** A request is addressed to the repository of the options; a listing asks
    for the open items, the most recently updated first. *)
Definition addressed_to (o : Options) (e : Event) : Prop :=
  match e with
  | repos_get p _ => rp_owner p = repoOwner o /\ rp_repo p = repoName o
  | issues_listForRepo p _ =>
      lp_owner p = repoOwner o /\ lp_repo p = repoName o
      /\ lp_state p = "open"%string /\ lp_sort p = "updated"%string
      /\ lp_direction p = "desc"%string
  | issues_createComment p _ =>
      cp_owner p = repoOwner o /\ cp_repo p = repoName o
  | issues_update p _ => up_owner p = repoOwner o /\ up_repo p = repoName o
  | _ => True
  end.

(** [has_slash s]: [s] contains the separator of [GITHUB_REPOSITORY]. *)
Fixpoint has_slash (s : string) : bool :=
  match s with
  | EmptyString => false
  | String c s' => Ascii.eqb c "/" || has_slash s'
  end.

(** The tracker rejected some request among these events, with this
    message. *)
Definition rejected_with (m : string) (evs : list Event) : Prop :=
  (exists p, In (repos_get p (Rejected m)) evs)
  \/ (exists p, In (issues_listForRepo p (Rejected m)) evs).

Module More.

(** An issue whose author is gone. *)
Definition ghost : Issue :=
  {| number := 9; updated_at := Scenario.now - Scenario.day 45;
     user := None; labels := []; pull_request := None |}.

(** Closing switched off: [closeAfter] left at 0. *)
Definition stale_only_options : Options :=
  {| repoOwner := "krizzu";
     repoName := "issue-triage-action";
     staleAfter := 30;
     closeAfter := 0;
     staleComment := "%DAYS_OLD% days, @%AUTHOR%";
     closeComment := "%DAYS_OLD% days, @%AUTHOR%";
     staleLabel := "STALE";
     showLogs := true |}.

Definition stale_only : ActionIssueTriage :=
  {| kit := Scenario.serving Scenario.issues; opts := stale_only_options |}.

(** A process whose clock advances by one second at each reading. *)
Definition ticking : Host :=
  {| GITHUB_REPOSITORY := "krizzu/issue-triage-action";
     GH_ACTION_LOCAL_TEST := None;
     core_getInput := fun _ => EmptyString;
     clock := fun n => Scenario.now + 1000 * Z.of_nat n |}.

(** A process whose workflow sets [showLogs] to something else than
    [true]. *)
Definition quiet : Host :=
  Scenario.host [("staleAfter", "30"); ("closeAfter", "60");
                 ("showLogs", "yes")]%string None.

(** A process started with [GH_ACTION_LOCAL_TEST=false]. *)
Definition local_false : Host :=
  Scenario.host [("staleAfter", "30"); ("closeAfter", "60");
                 ("staleComment", "%DAYS_OLD% days, @%AUTHOR%")]%string
    (Some "false"%string).

(** A repository whose only open items are pull requests. *)
Definition pulls : list Issue :=
  [{| number := 11; updated_at := Scenario.now - Scenario.day 90;
      user := Some {| login := "frank" |}; labels := [];
      pull_request := Some {| pr_url := "pull/11" |} |};
   {| number := 12; updated_at := Scenario.now - Scenario.day 80;
      user := Some {| login := "grace" |}; labels := [];
      pull_request := Some {| pr_url := "pull/12" |} |}].

Definition only_pulls : ActionIssueTriage :=
  {| kit := Scenario.serving pulls; opts := Scenario.options |}.

(** What the fetch of [only_pulls] leaves in the trace. *)
Definition only_pulls_events : list Event :=
  [repos_get {| rp_owner := "krizzu"; rp_repo := "issue-triage-action" |}
     (Resolved 2);
   issues_listForRepo
     {| lp_owner := "krizzu"; lp_repo := "issue-triage-action";
        lp_state := "open"; lp_sort := "updated"; lp_direction := "desc";
        lp_per_page := 100; lp_page := 1 |}
     (Resolved pulls)].

(** A repository whose only open issue was updated 10 days ago. *)
Definition fresh_issues : list Issue := [Scenario.issue 1 10 "carol"].

Definition fresh : ActionIssueTriage :=
  {| kit := Scenario.serving fresh_issues; opts := Scenario.options |}.

(** A process whose workflow sets [staleAfter] to 0 and nothing else. *)
Definition zero_days : Host :=
  Scenario.host [("staleAfter", "0")]%string None.


End More.

(** Every update request among [evs] comes right after an accepted comment
    on the same issue. *)
Definition update_follows_its_comment (evs : list Event) : Prop :=
  forall l1 q r l2,
    evs = l1 ++ issues_update q r :: l2 ->
    exists l1' p,
      l1 = l1' ++ [issues_createComment p (Resolved tt)]
      /\ cp_issue_number p = up_issue_number q.

Definition starts_with_update (evs : list Event) : bool :=
  match evs with
  | issues_update _ _ :: _ => true
  | _ => false
  end.

(** [has_percent s]: [s] contains the character that starts a token. *)
Fixpoint has_percent (s : string) : bool :=
  match s with
  | EmptyString => false
  | String c s' => Ascii.eqb c "%" || has_percent s'
  end.

(* ================================================================== *)
(** * Properties *)
(* ================================================================== *)

Example replace_first_only :
  JS.String_replace "a %X% b %X%" "%X%" "1" = "a 1 b %X%"%string.
Proof. reflexivity. Qed.

Example replace_dollar :
  JS.String_replace "a %X% b" "%X%" "[$&|$$]" = "a [%X%|$] b"%string.
Proof. reflexivity. Qed.

Example round_ties_up :
  JS.Math_round_abs_div 5 2 = 3 /\ JS.Math_round_abs_div (-7) 5 = 1
  /\ JS.Math_ceil_div 101 100 = 2 /\ JS.Math_ceil_div 200 100 = 2
  /\ JS.Math_ceil_div 0 100 = 0 /\ JS.Number_toString 40 = "40"%string.
Proof. repeat split; reflexivity. Qed.

(* ================================================================== *)
(** ** Strings: the first occurrence of a token *)
(* ================================================================== *)

Section FirstOccurrence.

Lemma append_nil_r (s : string) : s +++ EmptyString = s.
Proof. induction s as [|c s IH]; simpl; [reflexivity | now rewrite IH]. Qed.

Lemma append_assoc (a b c : string) : (a +++ b) +++ c = a +++ b +++ c.
Proof. induction a as [|x a IH]; simpl; [reflexivity | now rewrite IH]. Qed.

Lemma take_append (a b : string) : JS.take (String.length a) (a +++ b) = a.
Proof. induction a as [|x a IH]; simpl; [now destruct b | now rewrite IH]. Qed.

Lemma drop_append (a b : string) : JS.drop (String.length a) (a +++ b) = b.
Proof. induction a as [|x a IH]; simpl; [now destruct b | exact IH]. Qed.

Lemma drop_add (n m : nat) (s : string) :
  JS.drop (n + m) s = JS.drop m (JS.drop n s).
Proof.
  revert s; induction n as [|n IH]; intros s; simpl.
  - reflexivity.
  - destruct s as [|c s]; simpl; [now destruct m | apply IH].
Qed.

Lemma prefix_iff (p s : string) :
  prefix p s = true <-> exists r, s = p +++ r.
Proof.
  revert s; induction p as [|a p IH]; intros s.
  - split; [intros _; now exists s | intros _; now destruct s].
  - destruct s as [|b s]; simpl.
    + split; [discriminate | intros [r Hr]; discriminate].
    + destruct (ascii_dec a b) as [->|Hab].
      * rewrite IH. split; intros [r Hr]; exists r; congruence.
      * split; [discriminate | intros [r Hr]; congruence].
Qed.

Lemma indexOf_from_eq (p s : string) (i : nat) :
  JS.indexOf_from p s i =
  if prefix p s then Some i
  else match s with
       | EmptyString => None
       | String _ s' => JS.indexOf_from p s' (S i)
       end.
Proof. now destruct s. Qed.

Lemma prefix_occurs (p s post : string) : s = p +++ post -> prefix p s = true.
Proof. intros H. apply prefix_iff. now exists post. Qed.

Lemma indexOf_from_Some (p s : string) :
  forall i k, JS.indexOf_from p s i = Some k ->
  exists pre post, occurs_first p s pre post /\ (k = i + String.length pre)%nat.
Proof.
  induction s as [|c s IH]; intros i k; rewrite indexOf_from_eq;
    destruct (prefix p _) eqn:Hp; intros H; try discriminate.
  - injection H as <-. apply prefix_iff in Hp as [r Hr].
    exists EmptyString, r. split; [split|]; simpl;
      [exact Hr | intros; lia | lia].
  - injection H as <-. apply prefix_iff in Hp as [r Hr].
    exists EmptyString, r. split; [split|]; simpl;
      [exact Hr | intros; lia | lia].
  - apply IH in H as (pre & post & [Hs Hmin] & ->).
    exists (String c pre), post. split; [split|]; simpl.
    + now rewrite Hs.
    + intros [|c' pre'] post' H'; simpl in H'.
      * apply prefix_occurs in H'. congruence.
      * injection H' as _ H'. apply Hmin in H'. simpl. lia.
    + lia.
Qed.

Lemma indexOf_from_None (p s : string) :
  forall i, JS.indexOf_from p s i = None -> absent p s.
Proof.
  induction s as [|c s IH]; intros i; rewrite indexOf_from_eq;
    destruct (prefix p _) eqn:Hp; intros H; try discriminate;
    intros [|c' pre] post E; simpl in E;
    try (apply prefix_occurs in E; congruence).
  - discriminate.
  - injection E as _ E. exact (IH _ H _ _ E).
Qed.

Lemma GetSubstitution_verbatim (m pre post r : string) :
  has_dollar r = false -> JS.GetSubstitution m pre post r = r.
Proof.
  induction r as [|c r IH]; simpl; [reflexivity|].
  intros H. apply orb_false_elim in H as [Hc Hr].
  apply Ascii.eqb_neq in Hc. rewrite (IH Hr).
  destruct c as [[] [] [] [] [] [] [] []]; try reflexivity.
  now contradiction Hc.
Qed.

Lemma String_replace_first (s token value : string) :
  has_dollar value = false ->
  first_replaced token value s (JS.String_replace s token value).
Proof.
  intros Hv. unfold JS.String_replace, JS.indexOf.
  destruct (JS.indexOf_from token s 0) as [k|] eqn:Hk.
  - apply indexOf_from_Some in Hk as (pre & post & Hocc & ->).
    cbn [Nat.add]. pose proof Hocc as [Hs _].
    rewrite GetSubstitution_verbatim by exact Hv.
    rewrite drop_add.
    assert (JS.take (String.length pre) s = pre) as ->
      by (rewrite Hs; apply take_append).
    assert (JS.drop (String.length token) (JS.drop (String.length pre) s)
            = post) as ->
      by (rewrite Hs, drop_append; apply drop_append).
    now constructor.
  - apply indexOf_from_None in Hk. now constructor.
Qed.

Lemma append_inj_length (a b a' b' : string) :
  a +++ b = a' +++ b' -> String.length a = String.length a' ->
  a = a' /\ b = b'.
Proof.
  revert a'. induction a as [|c a IH]; intros [|c' a'] E L;
    try discriminate; cbn in *.
  - now split.
  - injection E as -> E. injection L as L.
    destruct (IH _ E L) as [-> ->]. now split.
Qed.

(** [first_replaced] determines its result. *)
Lemma first_replaced_deterministic (token value s r1 r2 : string) :
  first_replaced token value s r1 -> first_replaced token value s r2 ->
  r1 = r2.
Proof.
  intros [pre1 post1 [E1 M1]|A1] [pre2 post2 [E2 M2]|A2].
  - pose proof (M1 _ _ E2). pose proof (M2 _ _ E1).
    assert (String.length pre1 = String.length pre2) as L by lia.
    rewrite E1 in E2. destruct (append_inj_length _ _ _ _ E2 L) as [-> E].
    apply append_inj_length in E as [_ ->]; reflexivity.
  - now contradiction (A2 _ _ E1).
  - now contradiction (A1 _ _ E2).
  - reflexivity.
Qed.

Lemma has_dollar_uint (d : Decimal.uint) :
  has_dollar (NilEmpty.string_of_uint d) = false.
Proof. induction d; simpl; auto. Qed.

Lemma has_dollar_Number_toString (n : Z) :
  has_dollar (JS.Number_toString n) = false.
Proof.
  unfold JS.Number_toString, NilZero.string_of_int, NilZero.string_of_uint.
  destruct (Z.to_int n) as [d|d]; [|simpl];
    (destruct d; [reflexivity | apply (has_dollar_uint (_ d)) ..]).
Qed.

End FirstOccurrence.

(* ================================================================== *)
(** ** Worlds only grow *)
(* ================================================================== *)
Lemma advance_0 (w : World) : advance w [] 0 = w.
Proof.
  destruct w as [t n]; unfold advance; simpl.
  now rewrite app_nil_r, Nat.add_0_r.
Qed.

Lemma advance_advance (w : World) evs1 k1 evs2 k2 :
  advance (advance w evs1 k1) evs2 k2 = advance w (evs1 ++ evs2) (k1 + k2).
Proof. unfold advance; simpl. now rewrite app_assoc, Nat.add_assoc. Qed.

Lemma emit_advance (e : Event) (w : World) :
  emit e w = (Normal tt, advance w [e] 0).
Proof. unfold emit, advance. now rewrite Nat.add_0_r. Qed.

Lemma new_Date_advance (host : Host) (w : World) :
  new_Date host w = (Normal (clock host (clock_reads w)), advance w [] 1).
Proof. unfold new_Date, advance. now rewrite app_nil_r, Nat.add_1_r. Qed.

Lemma request_advance {P A} (answer : list Event -> P -> Response A)
    (record : P -> Response A -> Event) (p : P) (w : World) :
  request answer record p w =
  (match answer (trace w) p with
   | Resolved data => Normal data
   | Rejected message => Throw (ErrorObject "HttpError" message)
   end,
   advance w [record p (answer (trace w) p)] 0).
Proof.
  unfold request, advance. rewrite Nat.add_0_r.
  now destruct (answer (trace w) p).
Qed.

Lemma bind_Normal {A B} (m : M A) (k : A -> M B) w v w' :
  m w = (Normal v, w') -> bind m k w = k v w'.
Proof. unfold bind. now intros ->. Qed.

Lemma bind_Throw {A B} (m : M A) (k : A -> M B) w e w' :
  m w = (Throw e, w') -> bind m k w = (Throw e, w').
Proof. unfold bind. now intros ->. Qed.

Lemma _log_advance (this : ActionIssueTriage) (message : string) (w : World) :
  _log this message w =
  (Normal tt,
   advance w (if showLogs (opts this) then [console_log message] else []) 0).
Proof.
  unfold _log. destruct (showLogs (opts this)).
  - apply emit_advance.
  - unfold ret. now rewrite advance_0.
Qed.

Lemma _isOlderThan_advance (host : Host) (date days : Z) (w : World) :
  _isOlderThan host date days w =
  (Normal (older_at (clock host (clock_reads w)) date days), advance w [] 1).
Proof.
  unfold _isOlderThan. now rewrite (bind_Normal _ _ _ _ _ (new_Date_advance host w)).
Qed.

(* ================================================================== *)
(** ** The methods in closed form *)
(* ================================================================== *)

Lemma trace_advance w evs k : trace (advance w evs k) = trace w ++ evs.
Proof. reflexivity. Qed.

Lemma clock_reads_advance w evs k :
  clock_reads (advance w evs k) = (clock_reads w + k)%nat.
Proof. reflexivity. Qed.

Ltac normalize_world :=
  repeat first
    [ rewrite emit_advance | rewrite request_advance
    | rewrite advance_advance | rewrite trace_advance
    | rewrite clock_reads_advance | rewrite app_nil_r ];
  cbn [app Nat.add].

Section CandidateFacts.
Context (host : Host) (this : ActionIssueTriage).

Lemma _generateMessage_advance issue template w :
  _generateMessage host issue template w =
  (match user issue with
   | Some u => Normal (render (clock host (clock_reads w)) template (login u) issue)
   | None => Throw (ErrorObject "TypeError" "Cannot read property 'login' of null")
   end, advance w [] 1).
Proof.
  unfold _generateMessage, _getDaysSince, issue_user_login.
  rewrite (bind_Normal _ _ _ _ _ (bind_Normal _ _ _ _ _ (new_Date_advance host w))).
  destruct (user issue); reflexivity.
Qed.

Lemma _postComment_advance issue template w :
  _postComment host this issue template w =
  match user issue with
  | None =>
      (Throw (ErrorObject "TypeError" "Cannot read property 'login' of null"),
       advance w [] 1)
  | Some u =>
      let p := post_request this (clock host (clock_reads w)) issue template
                 (login u) in
      if dryRun host then (Normal true, advance w [] 1)
      else match kit_issues_createComment (kit this) (trace w) p with
           | Resolved _ =>
               (Normal true, advance w [issues_createComment p (Resolved tt)] 1)
           | Rejected m =>
               (Normal false,
                advance w [issues_createComment p (Rejected m);
                           post_error issue m] 1)
           end
  end.
Proof.
  unfold _postComment, bind, try_catch, ret.
  rewrite _generateMessage_advance.
  destruct (user issue) as [u|]; [|reflexivity].
  destruct (dryRun host); cbn [negb]; [reflexivity|].
  normalize_world. fold (post_request this (clock host (clock_reads w)) issue template (login u)).
  destruct (kit_issues_createComment _ _ _) as [[]|m]; cbn [Exn_message]; normalize_world; reflexivity.
Qed.

Lemma _updateIssue_advance issue closeIssue w :
  _updateIssue host this issue closeIssue w =
  let q := update_request this issue closeIssue in
  if dryRun host then (Normal true, w)
  else match kit_issues_update (kit this) (trace w) q with
       | Resolved _ =>
           (Normal true, advance w [issues_update q (Resolved tt)] 0)
       | Rejected m =>
           (Normal false,
            advance w [issues_update q (Rejected m);
                       update_error issue closeIssue m] 0)
       end.
Proof.
  unfold _updateIssue, bind, try_catch, ret.
  destruct (dryRun host); cbn [negb]; [reflexivity|].
  normalize_world. fold (update_request this issue closeIssue).
  destruct (kit_issues_update _ _ _) as [[]|m]; cbn [Exn_message]; normalize_world; reflexivity.
Qed.

Lemma triage_issue_eq issue c w :
  triage_issue host this issue c w =
  (Normal (outcome_counters host this issue c w),
   advance w (outcome_events host this issue w) (decision_reads this + 1)).
Proof.
  unfold triage_issue, outcome_counters, outcome_events, outcome,
    comment_request, closing_at, decision_reads, try_catch, bind, ret, throw.
  destruct (closeAfter (opts this) >? staleAfter (opts this))%Z.
  - rewrite _isOlderThan_advance, _postComment_advance.
    destruct (user issue) as [u|]; [|normalize_world; reflexivity].
    cbv zeta. unfold post_request, count_one. normalize_world.
    destruct (dryRun host) eqn:Hdry.
    + rewrite _updateIssue_advance, Hdry. cbv zeta. normalize_world.
      now destruct (older_at _ _ _).
    + destruct (kit_issues_createComment _ _ _) as [[]|m];
        [|normalize_world; reflexivity].
      rewrite _updateIssue_advance, Hdry. cbv zeta. normalize_world.
      destruct (kit_issues_update _ _ _) as [[]|m];
        normalize_world; [|reflexivity].
      now destruct (older_at _ _ _).
  - rewrite _postComment_advance.
    destruct (user issue) as [u|]; [|normalize_world; reflexivity].
    cbv zeta. unfold post_request. normalize_world.
    destruct (dryRun host) eqn:Hdry.
    + rewrite _updateIssue_advance, Hdry. cbv zeta. normalize_world.
      reflexivity.
    + rewrite Nat.add_0_r.
      destruct (kit_issues_createComment _ _ _) as [[]|m];
        [|normalize_world; reflexivity].
      rewrite _updateIssue_advance, Hdry. cbv zeta. normalize_world.
      destruct (kit_issues_update _ _ _) as [[]|m];
        normalize_world; reflexivity.
Qed.
End CandidateFacts.

Section ClosedFormFacts.

Context (host : Host) (this : ActionIssueTriage).

Lemma for_of_triage_issue (l : list Issue) :
  forall c w,
    for_of l (triage_issue host this) c w =
    (Normal (loop_counters host this l c w),
     advance w (loop_events host this l w)
       (List.length l * (decision_reads this + 1))).
Proof.
  induction l as [|issue l IH]; intros c w.
  - cbn. unfold ret. now rewrite advance_0.
  - cbn [for_of loop_counters loop_events List.length Nat.mul].
    rewrite (bind_Normal _ _ _ _ _ (triage_issue_eq host this issue c w)).
    rewrite IH. unfold after_candidate. now rewrite advance_advance.
Qed.

Lemma triage_loop_eq (l : list Issue) (w : World) :
  triage_loop host this l w =
  (Normal (loop_counters host this l {| markedStale := 0; closed := 0 |} w),
   advance w (loop_events host this l w)
     (List.length l * (decision_reads this + 1))).
Proof. apply for_of_triage_issue. Qed.

Lemma Array_filter_older (issues : list Issue) :
  forall w,
    Array_filter
      (fun issue =>
         _isOlderThan host (updated_at issue) (staleAfter (opts this)))
      issues w =
    (Normal (kept_from host this (clock_reads w) issues),
     advance w [] (List.length issues)).
Proof.
  induction issues as [|issue rest IH]; intros w.
  - cbn. unfold ret. now rewrite advance_0.
  - cbn [Array_filter kept_from List.length].
    rewrite (bind_Normal _ _ _ _ _ (_isOlderThan_advance host _ _ w)).
    rewrite (bind_Normal _ _ _ _ _ (IH _)). unfold ret.
    rewrite advance_advance, clock_reads_advance, Nat.add_1_r.
    now destruct (older_at _ _ _).
Qed.

Lemma _filterOldIssues_eq (issues : list Issue) (w : World) :
  _filterOldIssues host this issues w =
  (Normal (kept_from host this (clock_reads w) issues),
   advance w [] (List.length issues)).
Proof. apply Array_filter_older. Qed.

Lemma start_pages_eq (pages : list Z) :
  forall w,
    start_pages this pages w =
    (Normal (page_promises this (trace w) pages),
     advance w (page_events this (trace w) pages) 0).
Proof.
  induction pages as [|i pages IH]; intros w.
  - cbn. unfold ret. now rewrite advance_0.
  - cbn [start_pages page_promises page_events].
    unfold bind at 1. unfold start, getIssuesForPage, bind at 1.
    rewrite request_advance. fold (list_request this i).
    destruct (kit_issues_listForRepo (kit this) (trace w) (list_request this i))
      as [data|m] eqn:Hr;
      cbv beta iota zeta; unfold ret;
      rewrite (bind_Normal _ _ _ _ _ (IH _));
      rewrite advance_advance, trace_advance; reflexivity.
Qed.

Lemma _getAllIssues_eq (w : World) :
  _getAllIssues this w =
  (Normal (fetched this w), advance w (fetch_events this w) 0).
Proof.
  unfold _getAllIssues, fetched, fetch_events, try_catch.
  unfold bind at 1. rewrite request_advance. fold (repo_request this).
  destruct (kit_repos_get (kit this) (trace w) (repo_request this))
    as [totalIssues|m].
  - cbv beta iota zeta. unfold bind at 1. rewrite start_pages_eq.
    rewrite trace_advance. unfold bind, await, ret.
    destruct (Promise_all _) as [response|e].
    + now rewrite advance_advance, app_nil_r.
    + unfold fetch_error. normalize_world. reflexivity.
  - cbv beta iota zeta. unfold bind, ret, fetch_error. normalize_world.
    reflexivity.
Qed.

Lemma report_eq (c : Counters) (w : World) :
  report this c w = (Normal tt, advance w (report_events this c) 0).
Proof.
  unfold report, report_events, bind, ret.
  destruct (Nat.eqb (markedStale c) 0), (Nat.eqb (closed c) 0);
    cbn [andb]; rewrite ?_log_advance; fold (logged this);
    rewrite ?advance_advance, ?app_nil_r; cbn [app Nat.add];
    try reflexivity.
Qed.

Lemma run_eq (w : World) :
  run host this w =
  (Normal tt, advance w (run_events host this w) (run_reads host this w)).
Proof.
  unfold run, run_events, run_reads.
  rewrite (bind_Normal _ _ _ _ _ (_getAllIssues_eq w)).
  destruct (fetched this w) as [|i0 rest] eqn:Hf.
  - cbn [List.length Nat.eqb]. rewrite _log_advance.
    fold (no_issues_message this). fold (logged this).
    now rewrite advance_advance.
  - cbn [List.length Nat.eqb].
    unfold bind at 1. rewrite _log_advance.
    fold (total_message this). fold (logged this).
    rewrite advance_advance.
    rewrite (bind_Normal _ _ _ _ _ (_filterOldIssues_eq _ _)).
    rewrite advance_advance, clock_reads_advance, app_nil_r.
    cbn [Nat.add]. rewrite Nat.add_0_r.
    rewrite (bind_Normal _ _ _ _ _ (triage_loop_eq _ _)).
    rewrite report_eq, !advance_advance.
    unfold run_counters, run_candidates, loop_start. rewrite Hf.
    cbn [List.length]. rewrite Nat.add_0_r, <- !app_assoc. reflexivity.
Qed.

End ClosedFormFacts.

(* ================================================================== *)
(** ** Rendering the message *)
(* ================================================================== *)


Example two_author_tokens :
  fst (_generateMessage Scenario.live (Scenario.issue 2 40 "alice")
         "%AUTHOR%, %DAYS_OLD% days (%DAYS_OLD%), cc %AUTHOR%"
         Scenario.world0)
  = Normal "alice, 40 days (%DAYS_OLD%), cc %AUTHOR%"%string.
Proof. reflexivity. Qed.







(* ================================================================== *)
(** ** Which events a run can produce *)
(* ================================================================== *)

Section EventFacts.

Context (host : Host) (this : ActionIssueTriage).

Lemma older_at_iff (now date days : Z) :
  older_at now date days = true <-> now - date > days * oneDay.
Proof. unfold older_at, oneDay. rewrite Z.ltb_lt. lia. Qed.

Lemma stale_atb_iff now o issue :
  stale_atb now o issue = true <-> stale_at now o issue.
Proof. unfold stale_atb, stale_at. rewrite Z.ltb_lt. lia. Qed.

Lemma closes_atb_iff now o issue :
  closes_atb now o issue = true <-> closes_at now o issue.
Proof.
  unfold closes_atb, closes_at. rewrite andb_true_iff, !Z.ltb_lt. lia.
Qed.

Lemma older_at_stale now issue :
  older_at now (updated_at issue) (staleAfter (opts this))
  = stale_atb now (opts this) issue.
Proof.
  apply eq_true_iff_eq. now rewrite older_at_iff, stale_atb_iff.
Qed.

(** With a clock that moves during the run, each comparison uses its own
    reading: the [k]-th issue is compared at the [k]-th reading of the
    filter, and the close decision of a candidate at the reading its
    processing starts with. *)
Lemma kept_from_In (issues : list Issue) :
  forall n issue,
    In issue (kept_from host this n issues) <->
    exists k,
      nth_error issues k = Some issue
      /\ clock host (n + k) - updated_at issue
         > staleAfter (opts this) * oneDay.
Proof.
  induction issues as [|i l IH]; intros n issue; cbn [kept_from].
  - split; [intros [] | intros ([|k] & H & _); discriminate].
  - assert (In issue (kept_from host this (S n) l) <->
            exists k, nth_error (i :: l) (S k) = Some issue
                      /\ clock host (n + S k) - updated_at issue
                         > staleAfter (opts this) * oneDay) as Htail.
    { rewrite IH. split; intros (k & Hk & Hage); exists k;
        (split; [exact Hk|]);
        [replace (n + S k)%nat with (S n + k)%nat by lia
        |replace (S n + k)%nat with (n + S k)%nat by lia]; exact Hage. }
    destruct (older_at _ _ _) eqn:Hold.
    + cbn [In]. rewrite Htail. split.
      * intros [<-|(k & Hk)].
        -- exists 0%nat. rewrite Nat.add_0_r. split; [reflexivity|].
           now apply older_at_iff.
        -- now exists (S k).
      * intros ([|k] & Hk & Hage).
        -- left. now injection Hk.
        -- right. now exists k.
    + rewrite Htail. split.
      * intros (k & Hk). now exists (S k).
      * intros ([|k] & Hk & Hage).
        -- exfalso. injection Hk as ->. rewrite Nat.add_0_r in Hage.
           apply older_at_iff in Hage. congruence.
        -- now exists k.
Qed.


Section ConstantClock.

Context (now : Z) (Hclock : forall n, clock host n = now).

Lemma kept_from_constant (issues : list Issue) :
  forall n,
    kept_from host this n issues = filter (stale_atb now (opts this)) issues.
Proof.
  induction issues as [|issue rest IH]; intros n; cbn [kept_from filter].
  - reflexivity.
  - now rewrite Hclock, older_at_stale, !IH.
Qed.

Lemma closing_at_constant (n : nat) (issue : Issue) :
  closing_at host this n issue = closes_atb now (opts this) issue.
Proof.
  unfold closing_at, closes_atb. rewrite Hclock, Z.gtb_ltb.
  destruct (staleAfter (opts this) <? closeAfter (opts this)); cbn [andb].
  - apply eq_true_iff_eq. rewrite older_at_iff, Z.ltb_lt. lia.
  - reflexivity.
Qed.

End ConstantClock.

Lemma fetch_events_no_write (w : World) :
  forall e, In e (fetch_events this w) -> is_write e = false.
Proof.
  assert (forall pages h e, In e (page_events this h pages) ->
                            is_write e = false) as Hp.
  { induction pages as [|i pages IH]; intros h e; cbn [page_events].
    - intros [].
    - intros [<-|H]; [reflexivity | exact (IH _ _ H)]. }
  unfold fetch_events. intros e.
  destruct (kit_repos_get _ _ _) as [n|m].
  - cbn [In]. rewrite in_app_iff. intros [<-|[H|H]].
    + reflexivity.
    + exact (Hp _ _ _ H).
    + destruct (Promise_all _); [destruct H|].
      destruct H as [<-|[]]. reflexivity.
  - intros [<-|[<-|[]]]; reflexivity.
Qed.

Lemma logged_no_write (message : string) :
  forall e, In e (logged this message) -> is_write e = false.
Proof.
  unfold logged. destruct (showLogs (opts this)); intros e.
  - intros [<-|[]]. reflexivity.
  - intros [].
Qed.

Lemma report_events_no_write (c : Counters) :
  forall e, In e (report_events this c) -> is_write e = false.
Proof.
  unfold report_events. intros e. rewrite !in_app_iff.
  intros [H|[H|H]];
    repeat match type of H with
           | In _ (if ?b then _ else _) => destruct b
           end;
    solve [destruct H | exact (logged_no_write _ _ H)].
Qed.

(** Every event of the loop is an event of one of its candidates. *)
Lemma loop_events_In (l : list Issue) :
  forall w e,
    In e (loop_events host this l w) ->
    exists issue w',
      In issue l /\ In e (outcome_events host this issue w').
Proof.
  induction l as [|issue l IH]; intros w e; cbn [loop_events].
  - intros [].
  - rewrite in_app_iff. intros [H|H].
    + exists issue, w. split; [now left | exact H].
    + destruct (IH _ _ H) as (i & w' & Hi & He).
      exists i, w'. split; [now right | exact He].
Qed.

(** Every candidate is processed, whatever happened to those before it. *)
Lemma loop_events_all (l : list Issue) :
  forall w issue,
    In issue l ->
    exists w',
      forall e, In e (outcome_events host this issue w') ->
                In e (loop_events host this l w).
Proof.
  induction l as [|i l IH]; intros w issue; cbn [loop_events In].
  - intros [].
  - intros [->|H].
    + exists w. intros e He. apply in_app_iff. now left.
    + destruct (IH (after_candidate host this i w) _ H) as (w' & Hw').
      exists w'. intros e He. apply in_app_iff. right. now apply Hw'.
Qed.

(** The write requests of one candidate. *)
Lemma outcome_events_comment issue w p r :
  In (issues_createComment p r) (outcome_events host this issue w) ->
  exists u, user issue = Some u
            /\ p = comment_request host this (clock_reads w) issue (login u).
Proof.
  unfold outcome_events. destruct (user issue) as [u|].
  - intros H. exists u. split; [reflexivity|].
    destruct (outcome host this issue w); [| | |destruct (dryRun host)];
      cbn [In] in H;
      repeat match type of H with
             | _ \/ _ => destruct H as [H|H]
             end;
      try discriminate; try contradiction; now injection H.
  - intros [H|[]]. discriminate.
Qed.

Lemma outcome_events_update issue w p r :
  In (issues_update p r) (outcome_events host this issue w) ->
  p = update_request this issue (closing_at host this (clock_reads w) issue).
Proof.
  unfold outcome_events. destruct (user issue) as [u|].
  - intros H.
    destruct (outcome host this issue w); [| | |destruct (dryRun host)];
      cbn [In] in H;
      repeat match type of H with
             | _ \/ _ => destruct H as [H|H]
             end;
      try discriminate; try contradiction; now injection H.
  - intros [H|[]]. discriminate.
Qed.

(** In a live run a candidate with an author is always commented on, and
    its update is sent as soon as the comment is accepted. *)
Lemma outcome_events_live issue u w :
  dryRun host = false ->
  user issue = Some u ->
  let p := comment_request host this (clock_reads w) issue (login u) in
  let q := update_request this issue
             (closing_at host this (clock_reads w) issue) in
  exists r,
    In (issues_createComment p r) (outcome_events host this issue w)
    /\ (r = Resolved tt ->
        exists r', In (issues_update q r') (outcome_events host this issue w)).
Proof.
  intros Hdry Hu p q. unfold outcome_events, outcome.
  rewrite Hu, Hdry. fold p. fold q.
  destruct (kit_issues_createComment _ _ _) as [[]|m].
  - exists (Resolved tt).
    destruct (kit_issues_update _ _ _) as [[]|m].
    + split; [now left|]. intros _. exists (Resolved tt). right. now left.
    + split; [now left|]. intros _. exists (Rejected m). right. now left.
  - exists (Rejected m). split; [now left | discriminate].
Qed.

End EventFacts.

Section RunFacts.

Context (host : Host) (this : ActionIssueTriage).

(** The only write requests of a run are those of its loop. *)
Lemma run_events_write (w : World) (e : Event) :
  In e (run_events host this w) ->
  is_write e = true ->
  In e (loop_events host this (run_candidates host this w)
          (loop_start this w)).
Proof.
  unfold run_events. intros H Hw.
  destruct (fetched this w) as [|i0 rest] eqn:Hf.
  - apply in_app_iff in H as [H|H].
    + apply fetch_events_no_write in H; congruence.
    + apply logged_no_write in H; congruence.
  - apply in_app_iff in H as [H|H].
    { apply fetch_events_no_write in H; congruence. }
    apply in_app_iff in H as [H|H].
    { apply logged_no_write in H; congruence. }
    apply in_app_iff in H as [H|H]; [exact H|].
    apply report_events_no_write in H; congruence.
Qed.

Lemma loop_events_run (w : World) (e : Event) :
  In e (loop_events host this (run_candidates host this w)
          (loop_start this w)) ->
  In e (run_events host this w).
Proof.
  unfold run_events, run_candidates.
  destruct (fetched this w) as [|i0 rest] eqn:Hf.
  - intros [].
  - intros H. rewrite !in_app_iff. right. right. now left.
Qed.

End RunFacts.

(* ================================================================== *)
(** ** Triage by age *)
(* ================================================================== *)

(** C1.  At the instant [now] of a run, the candidates are exactly the
    fetched issues whose age strictly exceeds [staleAfter] days, so an issue
    exactly [staleAfter] days old is not one.  Every comment and every
    update of the run is for a candidate.  The update of a candidate asks
    to close it iff [closeAfter > staleAfter] and its age strictly exceeds
    [closeAfter] days; otherwise it adds the stale label and does not
    close.  In a live run every candidate that has an author is commented
    on, and once its comment is accepted its update is sent. *)
Theorem triage_by_age
    (host : Host) (this : ActionIssueTriage) (now : Z) (w : World) :
  (forall n, clock host n = now) ->
  exists (allIssues : list Issue) (evs : list Event) (k : nat),
    fst (_getAllIssues this w) = Normal allIssues
    /\ run host this w = (Normal tt, advance w evs k)
    /\ (forall w',
          fst (_filterOldIssues host this allIssues w')
          = Normal (filter (stale_atb now (opts this)) allIssues))
    /\ (forall issue,
          In issue (filter (stale_atb now (opts this)) allIssues)
          <-> In issue allIssues /\ stale_at now (opts this) issue)
    /\ (forall issue,
          now - updated_at issue = staleAfter (opts this) * oneDay ->
          ~ In issue (filter (stale_atb now (opts this)) allIssues))
    /\ (forall p r,
          In (issues_createComment p r) evs ->
          exists issue,
            In issue allIssues /\ stale_at now (opts this) issue
            /\ cp_issue_number p = number issue)
    /\ (forall p r,
          In (issues_update p r) evs ->
          exists issue,
            In issue allIssues /\ stale_at now (opts this) issue
            /\ up_issue_number p = number issue
            /\ ((closes_at now (opts this) issue
                 /\ up_state p = Some "closed"%string /\ up_labels p = None)
                \/ (~ closes_at now (opts this) issue
                    /\ up_state p = None
                    /\ up_labels p
                       = Some (labels issue ++ [staleLabel (opts this)]))))
    /\ (dryRun host = false ->
        forall issue u,
          In issue allIssues -> stale_at now (opts this) issue ->
          user issue = Some u ->
          exists p r,
            In (issues_createComment p r) evs
            /\ cp_issue_number p = number issue
            /\ (r = Resolved tt ->
                exists q r',
                  In (issues_update q r') evs
                  /\ up_issue_number q = number issue
                  /\ (up_state q = Some "closed"%string
                      <-> closes_at now (opts this) issue))).
Proof.
  intros Hclock.
  exists (fetched this w), (run_events host this w), (run_reads host this w).
  assert (forall issue,
             In issue (run_candidates host this w)
             <-> In issue (fetched this w) /\ stale_at now (opts this) issue)
    as Hcand.
  { intros issue. unfold run_candidates.
    rewrite (kept_from_constant host this now Hclock), filter_In.
    now rewrite stale_atb_iff. }
  split; [now rewrite _getAllIssues_eq|].
  split; [apply run_eq|].
  split; [intros w'; rewrite _filterOldIssues_eq;
          now rewrite (kept_from_constant host this now Hclock)|].
  split; [intros issue; rewrite filter_In; now rewrite stale_atb_iff|].
  split.
  { intros issue Hage. rewrite filter_In, stale_atb_iff.
    unfold stale_at. lia. }
  split.
  { intros p r H. apply run_events_write in H; [|reflexivity].
    apply loop_events_In in H as (issue & w' & Hi & He).
    apply outcome_events_comment in He as (u & _ & ->).
    apply Hcand in Hi as [Hi Hs]. now exists issue. }
  split.
  { intros p r H. apply run_events_write in H; [|reflexivity].
    apply loop_events_In in H as (issue & w' & Hi & He).
    apply outcome_events_update in He as ->.
    apply Hcand in Hi as [Hi Hs]. exists issue.
    repeat (split; [assumption || reflexivity|]).
    rewrite (closing_at_constant host this now Hclock).
    unfold update_request; cbn [up_state up_labels].
    destruct (closes_atb now (opts this) issue) eqn:Hc.
    - left. now rewrite <- closes_atb_iff.
    - right. rewrite <- closes_atb_iff, Hc. now split. }
  intros Hdry issue u Hi Hs Hu.
  assert (In issue (run_candidates host this w)) as Hc by now apply Hcand.
  destruct (loop_events_all host this _ (loop_start this w) _ Hc)
    as (w' & Hw').
  destruct (outcome_events_live host this issue u w' Hdry Hu) as (r & Hp & Hq).
  eexists. exists r. split; [apply loop_events_run, Hw', Hp|].
  split; [reflexivity|].
  intros Hr. destruct (Hq Hr) as (r' & Hq').
  eexists. exists r'. split; [apply loop_events_run, Hw', Hq'|].
  split; [reflexivity|].
  rewrite (closing_at_constant host this now Hclock).
  unfold update_request; cbn [up_state].
  rewrite <- closes_atb_iff.
  destruct (closes_atb now (opts this) issue); split; congruence.
Qed.

Example scenario_options : Index.options Scenario.live = Some Scenario.options.
Proof. reflexivity. Qed.

Lemma triage_by_age_witness :
  (forall n, clock Scenario.live n = Scenario.now)
  /\ exists (allIssues : list Issue) (evs : list Event) (k : nat),
       fst (_getAllIssues Scenario.action Scenario.world0) = Normal allIssues
       /\ run Scenario.live Scenario.action Scenario.world0
          = (Normal tt, advance Scenario.world0 evs k)
       /\ (forall w',
             fst (_filterOldIssues Scenario.live Scenario.action allIssues w')
             = Normal (filter (stale_atb Scenario.now Scenario.options)
                         allIssues))
       /\ (forall issue,
             In issue (filter (stale_atb Scenario.now Scenario.options)
                         allIssues)
             <-> In issue allIssues
                 /\ stale_at Scenario.now Scenario.options issue)
       /\ (forall issue,
             Scenario.now - updated_at issue
             = staleAfter Scenario.options * oneDay ->
             ~ In issue (filter (stale_atb Scenario.now Scenario.options)
                           allIssues))
       /\ (forall p r,
             In (issues_createComment p r) evs ->
             exists issue,
               In issue allIssues
               /\ stale_at Scenario.now Scenario.options issue
               /\ cp_issue_number p = number issue)
       /\ (forall p r,
             In (issues_update p r) evs ->
             exists issue,
               In issue allIssues
               /\ stale_at Scenario.now Scenario.options issue
               /\ up_issue_number p = number issue
               /\ ((closes_at Scenario.now Scenario.options issue
                    /\ up_state p = Some "closed"%string
                    /\ up_labels p = None)
                   \/ (~ closes_at Scenario.now Scenario.options issue
                       /\ up_state p = None
                       /\ up_labels p
                          = Some (labels issue
                                  ++ [staleLabel Scenario.options]))))
       /\ (dryRun Scenario.live = false ->
           forall issue u,
             In issue allIssues ->
             stale_at Scenario.now Scenario.options issue ->
             user issue = Some u ->
             exists p r,
               In (issues_createComment p r) evs
               /\ cp_issue_number p = number issue
               /\ (r = Resolved tt ->
                   exists q r',
                     In (issues_update q r') evs
                     /\ up_issue_number q = number issue
                     /\ (up_state q = Some "closed"%string
                         <-> closes_at Scenario.now Scenario.options issue))).
Proof.
  split; [reflexivity|].
  apply (triage_by_age Scenario.live Scenario.action Scenario.now
           Scenario.world0).
  reflexivity.
Defined.

(* ================================================================== *)
(** ** Counters and failure isolation *)
(* ================================================================== *)

Section CounterFacts.

Context (host : Host) (this : ActionIssueTriage).

Lemma warnings_app (a b : list Event) :
  warnings (a ++ b) = (warnings a + warnings b)%nat.
Proof. unfold warnings. now rewrite filter_app, length_app. Qed.

(** One candidate: either it is counted once, or it leaves one warning. *)
Lemma outcome_counted_or_warned (issue : Issue) (c : Counters) (w : World) :
  (outcome_counters host this issue c w = c
   /\ warnings (outcome_events host this issue w) = 1%nat)
  \/ (outcome_counters host this issue c w
      = count_one (closing_at host this (clock_reads w) issue) c
      /\ warnings (outcome_events host this issue w) = 0%nat
      /\ outcome host this issue w = transitioned).
Proof.
  unfold outcome_counters, outcome_events.
  destruct (user issue) as [u|] eqn:Hu.
  - destruct (outcome host this issue w) eqn:Ho.
    + unfold outcome in Ho. rewrite Hu in Ho.
      destruct (dryRun host); [discriminate|].
      destruct (kit_issues_createComment _ _ _) as [[]|];
        [destruct (kit_issues_update _ _ _) as [[]|]|]; discriminate.
    + left. now split.
    + left. now split.
    + right. split; [reflexivity|]. split; [|reflexivity].
      now destruct (dryRun host).
  - unfold outcome. rewrite Hu. left. now split.
Qed.

Lemma counted_count_one (b : bool) (c : Counters) :
  counted (count_one b c) = S (counted c).
Proof. unfold counted, count_one. destruct b; cbn; lia. Qed.

Lemma loop_counted_and_warned (l : list Issue) :
  forall c w,
    (counted (loop_counters host this l c w)
     + warnings (loop_events host this l w)
     = counted c + List.length l)%nat.
Proof.
  induction l as [|issue l IH]; intros c w;
    cbn [loop_counters loop_events List.length].
  - cbn. lia.
  - rewrite warnings_app.
    pose proof (IH (outcome_counters host this issue c w)
                  (after_candidate host this issue w)) as H.
    destruct (outcome_counted_or_warned issue c w)
      as [[E ->]|(E & -> & _)]; rewrite E in H |- *;
      rewrite ?counted_count_one in H; lia.
Qed.

End CounterFacts.

(** C10.  The counters of the loop start at zero.  Processing one candidate
    never fails and either leaves both counters unchanged or adds one to
    exactly one of them; it adds one only when the comment and then the
    update were both accepted (in a dry run neither is sent and both count
    as accepted), [closed] for a close request and [markedStale] for a
    label request.  Every candidate is either counted once or leaves one
    warning, so [markedStale + closed] never exceeds the number of
    candidates. *)
Theorem counters_count_each_candidate_once
    (host : Host) (this : ActionIssueTriage) :
  (forall w,
      triage_loop host this [] w
      = (Normal {| markedStale := 0; closed := 0 |}, w))
  /\ (forall issue c w,
        exists c' evs k,
          triage_issue host this issue c w = (Normal c', advance w evs k)
          /\ (c' = c
              \/ exists p q,
                   cp_issue_number p = number issue
                   /\ up_issue_number q = number issue
                   /\ evs = (if dryRun host then []
                             else [issues_createComment p (Resolved tt);
                                   issues_update q (Resolved tt)])
                   /\ ((up_state q = None
                        /\ c' = {| markedStale := S (markedStale c);
                                   closed := closed c |})
                       \/ (up_state q = Some "closed"%string
                           /\ c' = {| markedStale := markedStale c;
                                      closed := S (closed c) |}))))
  /\ (forall candidates w,
        exists c evs k,
          triage_loop host this candidates w = (Normal c, advance w evs k)
          /\ (markedStale c + closed c + List.length (filter is_warning evs)
              = List.length candidates)%nat
          /\ (markedStale c + closed c <= List.length candidates)%nat).
Proof.
  split; [reflexivity|]. split.
  - intros issue c w. do 3 eexists. split; [apply triage_issue_eq|].
    destruct (outcome_counted_or_warned host this issue c w)
      as [[-> _]|(-> & _ & Ho)]; [now left|].
    right. unfold outcome_events. rewrite Ho. unfold outcome in Ho.
    destruct (user issue) as [u|]; [|discriminate].
    exists (comment_request host this (clock_reads w) issue (login u)),
      (update_request this issue (closing_at host this (clock_reads w) issue)).
    split; [reflexivity|]. split; [reflexivity|]. split.
    + reflexivity.
    + unfold update_request, count_one; cbn [up_state].
      destruct (closing_at _ _ _ _); [right | left]; now split.
  - intros candidates w. do 3 eexists.
    split; [apply triage_loop_eq|].
    pose proof (loop_counted_and_warned host this candidates
                  {| markedStale := 0; closed := 0 |} w) as H.
    unfold counted, warnings in H. cbn [markedStale closed] in H.
    split; lia.
Qed.

Lemma count_one_changes (b : bool) (c : Counters) : count_one b c <> c.
Proof.
  unfold count_one. destruct c as [m k], b; cbn; intros [= H]; lia.
Qed.

(** C2.  Processing one candidate never throws.  If its comment is
    rejected, no update is requested for it, neither counter changes, and
    the failure is reported by the warning of the loop.  In general a
    candidate either changes a counter and leaves no warning, or changes
    none and leaves exactly one warning.  The loop goes through all its
    candidates whatever happened to the earlier ones: it never throws, each
    candidate is counted or warned about, and in a live run every candidate
    with an author gets its comment request.  Hence [run] always completes
    normally. *)
Theorem failures_are_isolated (host : Host) (this : ActionIssueTriage) :
  (forall issue c w,
      exists c' evs k,
        triage_issue host this issue c w = (Normal c', advance w evs k)
        /\ (forall p m,
              In (issues_createComment p (Rejected m)) evs ->
              c' = c
              /\ (forall q r, ~ In (issues_update q r) evs)
              /\ In (core_warning
                       (Thrown ("Could not post comment for #"
                                +++ JS.Number_toString (number issue)
                                +++ "."))) evs)
        /\ ((c' = c /\ warnings evs = 1%nat)
            \/ (c' <> c /\ warnings evs = 0%nat)))
  /\ (forall candidates c w,
        exists c' evs k,
          for_of candidates (triage_issue host this) c w
          = (Normal c', advance w evs k)
          /\ (counted c' + warnings evs
              = counted c + List.length candidates)%nat
          /\ (dryRun host = false ->
              forall issue u,
                In issue candidates -> user issue = Some u ->
                exists p r,
                  In (issues_createComment p r) evs
                  /\ cp_issue_number p = number issue))
  /\ (forall w, fst (run host this w) = Normal tt).
Proof.
  split; [|split].
  - intros issue c w. do 3 eexists. split; [apply triage_issue_eq|]. split.
    + intros p m. unfold outcome_counters, outcome_events.
      destruct (user issue) as [u|]; [|intros [H|[]]; discriminate].
      destruct (outcome host this issue w) as [| m' | m' |];
        [| | |destruct (dryRun host)]; cbn [In]; intros H;
        repeat match type of H with
               | _ \/ _ => destruct H as [H|H]
               end;
        try discriminate; try contradiction.
      split; [reflexivity|]. split.
      * intros q r [H'|[H'|[H'|[]]]]; discriminate.
      * right. right. now left.
    + destruct (outcome_counted_or_warned host this issue c w)
        as [[-> ->]|(-> & -> & _)]; [left | right]; split;
        try reflexivity.
      apply count_one_changes.
  - intros candidates c w. do 3 eexists.
    split; [apply for_of_triage_issue|].
    split; [apply loop_counted_and_warned|].
    intros Hdry issue u Hi Hu.
    destruct (loop_events_all host this _ w _ Hi) as (w' & Hw').
    destruct (outcome_events_live host this issue u w' Hdry Hu)
      as (r & Hp & _).
    eexists. exists r. split; [apply Hw', Hp | reflexivity].
  - intros w. now rewrite run_eq.
Qed.

(* ================================================================== *)
(** ** The update of a stale issue *)
(* ================================================================== *)

Lemma count_occ_snoc (l : list string) (x : string) :
  count_occ string_dec (l ++ [x]) x = S (count_occ string_dec l x).
Proof.
  rewrite count_occ_app. cbn [count_occ].
  destruct (string_dec x x); [lia | contradiction].
Qed.

(** C8.  Whenever the processing of a candidate sends an update that does
    not close it, the labels sent are the labels of the issue followed by
    the configured stale label, whether or not the issue already has it:
    the stale label occurs once more in the list sent than in the labels of
    the issue, so twice at least when it was already attached. *)
Theorem stale_update_appends_label
    (host : Host) (this : ActionIssueTriage) (issue : Issue) (c : Counters)
    (w : World) (evs : list Event) (q : UpdateParams) (r : Response unit) :
  trace (snd (triage_issue host this issue c w)) = trace w ++ evs ->
  In (issues_update q r) evs ->
  up_state q = None ->
  up_issue_number q = number issue
  /\ up_labels q = Some (labels issue ++ [staleLabel (opts this)])
  /\ count_occ string_dec (labels issue ++ [staleLabel (opts this)])
       (staleLabel (opts this))
     = S (count_occ string_dec (labels issue) (staleLabel (opts this)))
  /\ (In (staleLabel (opts this)) (labels issue) ->
      (2 <= count_occ string_dec (labels issue ++ [staleLabel (opts this)])
              (staleLabel (opts this)))%nat).
Proof.
  rewrite triage_issue_eq. cbn [snd]. rewrite trace_advance.
  intros E%app_inv_head Hin Hstate. subst evs.
  apply outcome_events_update in Hin. subst q.
  unfold update_request in *. cbn [up_state up_labels up_issue_number] in *.
  destruct (closing_at _ _ _ _); [discriminate|].
  split; [reflexivity|]. split; [reflexivity|].
  rewrite count_occ_snoc. split; [reflexivity|].
  intros H. apply (count_occ_In string_dec) in H. lia.
Qed.

Lemma stale_update_appends_label_witness :
  trace (snd (triage_issue Scenario.live Scenario.action Scenario.labelled
                {| markedStale := 0; closed := 0 |} Scenario.world0))
  = trace Scenario.world0 ++ Scenario.labelled_events
  /\ In (issues_update Scenario.labelled_update (Resolved tt))
       Scenario.labelled_events
  /\ up_state Scenario.labelled_update = None
  /\ up_issue_number Scenario.labelled_update = number Scenario.labelled
  /\ up_labels Scenario.labelled_update
     = Some (labels Scenario.labelled ++ [staleLabel Scenario.options])
  /\ count_occ string_dec
       (labels Scenario.labelled ++ [staleLabel Scenario.options])
       (staleLabel Scenario.options)
     = S (count_occ string_dec (labels Scenario.labelled)
            (staleLabel Scenario.options))
  /\ (In (staleLabel Scenario.options) (labels Scenario.labelled) ->
      (2 <= count_occ string_dec
              (labels Scenario.labelled ++ [staleLabel Scenario.options])
              (staleLabel Scenario.options))%nat).
Proof.
  assert (trace (snd (triage_issue Scenario.live Scenario.action
                        Scenario.labelled
                        {| markedStale := 0; closed := 0 |} Scenario.world0))
          = trace Scenario.world0 ++ Scenario.labelled_events) as Htrace
    by reflexivity.
  assert (In (issues_update Scenario.labelled_update (Resolved tt))
            Scenario.labelled_events) as Hin
    by (right; left; reflexivity).
  assert (up_state Scenario.labelled_update = None) as Hstate by reflexivity.
  split; [exact Htrace|]. split; [exact Hin|]. split; [exact Hstate|].
  exact (stale_update_appends_label Scenario.live Scenario.action
           Scenario.labelled {| markedStale := 0; closed := 0 |}
           Scenario.world0 Scenario.labelled_events Scenario.labelled_update
           (Resolved tt) Htrace Hin Hstate).
Defined.

(* ================================================================== *)
(** ** Dry run against live run *)
(* ================================================================== *)

Lemma filter_all {A} (f : A -> bool) (l : list A) :
  (forall x, In x l -> f x = true) -> filter f l = l.
Proof.
  induction l as [|x l IH]; intros H; cbn [filter]; [reflexivity|].
  rewrite (H x (or_introl eq_refl)), IH; [reflexivity|].
  intros y Hy. apply H. now right.
Qed.

Lemma not_write_all (l : list Event) :
  (forall e, In e l -> is_write e = false) -> filter not_write l = l.
Proof.
  intros H. apply filter_all. intros e He. unfold not_write.
  now rewrite (H e He).
Qed.

Lemma console_not_write (l : list Event) :
  console (filter not_write l) = console l.
Proof.
  unfold console. induction l as [|e l IH]; [reflexivity|].
  destruct e; cbn; rewrite ?IH; reflexivity.
Qed.

Section DryRun.

Context (dry live : Host) (this : ActionIssueTriage).
Context (Hdry : dryRun dry = true) (Hlive : dryRun live = false).
Context (Hclock : forall n, clock dry n = clock live n).

Lemma kept_from_same_clock (issues : list Issue) :
  forall n, kept_from dry this n issues = kept_from live this n issues.
Proof.
  induction issues as [|i l IH]; intros n; cbn [kept_from]; [reflexivity|].
  now rewrite Hclock, !IH.
Qed.

Lemma closing_at_same_clock (n : nat) (issue : Issue) :
  closing_at dry this n issue = closing_at live this n issue.
Proof. unfold closing_at. now rewrite Hclock. Qed.

Lemma outcome_events_dry (issue : Issue) (w : World) :
  forall e, In e (outcome_events dry this issue w) -> is_write e = false.
Proof.
  unfold outcome_events, outcome. rewrite Hdry.
  destruct (user issue); intros e.
  - intros [].
  - intros [<-|[]]. reflexivity.
Qed.

Lemma loop_events_dry (l : list Issue) :
  forall w e, In e (loop_events dry this l w) -> is_write e = false.
Proof.
  intros w e H. apply loop_events_In in H as (i & w' & _ & H).
  exact (outcome_events_dry _ _ _ H).
Qed.

Lemma run_events_dry (w : World) :
  forall e, In e (run_events dry this w) -> is_write e = false.
Proof.
  intros e H. destruct (is_write e) eqn:He; [|reflexivity].
  pose proof (loop_events_dry _ _ _ (run_events_write dry this w e H He)).
  congruence.
Qed.

Lemma run_reads_same_clock (w : World) :
  run_reads dry this w = run_reads live this w.
Proof.
  unfold run_reads, run_candidates. now rewrite kept_from_same_clock.
Qed.

(** When the tracker accepts the comments and the updates the live run
    sends, the dry run differs from it by these requests only. *)
Lemma outcome_same (issue : Issue) (wd wl : World) :
  clock_reads wd = clock_reads wl ->
  (forall e, In e (outcome_events live this issue wl) ->
             is_rejected_write e = false) ->
  (forall c, outcome_counters dry this issue c wd
             = outcome_counters live this issue c wl)
  /\ outcome_events dry this issue wd
     = filter not_write (outcome_events live this issue wl).
Proof.
  intros E. unfold outcome_counters, outcome_events, outcome.
  rewrite Hdry, Hlive, E. destruct (user issue) as [u|].
  - destruct (kit_issues_createComment _ _ _) as [[]|m].
    + destruct (kit_issues_update _ _ _) as [[]|m].
      * intros _. split; [|reflexivity].
        intros c. now rewrite closing_at_same_clock.
      * intros Hacc.
        now specialize (Hacc _ (or_intror (or_introl eq_refl))).
    + intros Hacc. now specialize (Hacc _ (or_introl eq_refl)).
  - intros _. split; reflexivity.
Qed.

Lemma loop_same (l : list Issue) :
  forall c wd wl,
    clock_reads wd = clock_reads wl ->
    (forall e, In e (loop_events live this l wl) ->
               is_rejected_write e = false) ->
    loop_counters dry this l c wd = loop_counters live this l c wl
    /\ loop_events dry this l wd
       = filter not_write (loop_events live this l wl).
Proof.
  induction l as [|i l IH]; intros c wd wl E Hacc;
    cbn [loop_counters loop_events] in *; [now split|].
  destruct (outcome_same i wd wl E) as [Hc He].
  { intros e H. apply Hacc, in_app_iff. now left. }
  destruct (IH (outcome_counters dry this i c wd)
              (after_candidate dry this i wd) (after_candidate live this i wl))
    as [IHc IHe].
  { unfold after_candidate. now rewrite !clock_reads_advance, E. }
  { intros e H. apply Hacc, in_app_iff. now right. }
  rewrite filter_app, <- He, <- IHe, IHc, Hc. now split.
Qed.

Lemma run_same (w : World) :
  (forall e, In e (run_events live this w) -> is_rejected_write e = false) ->
  run_counters dry this w = run_counters live this w
  /\ run_events dry this w = filter not_write (run_events live this w).
Proof.
  intros Hacc.
  assert (forall e,
             In e (loop_events live this (run_candidates live this w)
                     (loop_start this w)) ->
             is_rejected_write e = false) as Hloop
    by (intros e H; apply Hacc; now apply loop_events_run).
  clear Hacc. revert Hloop.
  unfold run_events, run_counters, run_candidates.
  rewrite kept_from_same_clock. intros Hloop.
  destruct (loop_same (kept_from live this (clock_reads w) (fetched this w))
              {| markedStale := 0; closed := 0 |}
              (loop_start this w) (loop_start this w) eq_refl Hloop)
    as [Hc He].
  split; [exact Hc|].
  destruct (fetched this w) as [|i0 rest].
  - rewrite not_write_all; [reflexivity|].
    intros e H. apply in_app_iff in H as [H|H];
      [exact (fetch_events_no_write _ _ _ H)
      | exact (logged_no_write _ _ _ H)].
  - rewrite !filter_app, <- He, Hc.
    rewrite (not_write_all (fetch_events this w))
      by apply fetch_events_no_write.
    rewrite (not_write_all (logged this _)) by apply logged_no_write.
    rewrite (not_write_all (report_events this _))
      by apply report_events_no_write.
    reflexivity.
Qed.

End DryRun.


(* ================================================================== *)
(** ** What a run returns and what it reports *)
(* ================================================================== *)

Section ReportFacts.

Context (host : Host) (this : ActionIssueTriage).

Lemma console_app (a b : list Event) : console (a ++ b) = console a ++ console b.
Proof. apply filter_app. Qed.

Lemma console_none (l : list Event) :
  (forall e, In e l -> is_console_log e = false) -> console l = [].
Proof.
  induction l as [|e l IH]; intros H; [reflexivity|].
  unfold console in *. cbn [filter].
  rewrite (H e (or_introl eq_refl)). apply IH.
  intros x Hx. apply H. now right.
Qed.

Lemma console_logged (message : string) :
  console (logged this message) = logged this message.
Proof. unfold logged. now destruct (showLogs (opts this)). Qed.

Lemma console_report_events (c : Counters) :
  console (report_events this c) = report_events this c.
Proof.
  unfold report_events. rewrite !console_app.
  destruct (Nat.eqb (markedStale c) 0), (Nat.eqb (closed c) 0); cbn [andb];
    now rewrite ?console_logged.
Qed.

Lemma console_fetch_events (w : World) : console (fetch_events this w) = [].
Proof.
  assert (forall pages h, console (page_events this h pages) = []) as Hp.
  { induction pages as [|i pages IH]; intros h; [reflexivity|].
    cbn [page_events]. unfold console in *. cbn [filter is_console_log].
    apply IH. }
  unfold fetch_events. destruct (kit_repos_get _ _ _) as [n|m];
    [|reflexivity].
  change (?x :: ?l ++ ?r) with ([x] ++ l ++ r).
  rewrite !console_app, Hp. now destruct (Promise_all _).
Qed.

Lemma outcome_events_not_logged (issue : Issue) (w : World) :
  forall e, In e (outcome_events host this issue w) ->
            is_console_log e = false.
Proof.
  unfold outcome_events. intros e.
  destruct (user issue) as [u|];
    [destruct (outcome host this issue w); [| | |destruct (dryRun host)]|];
    cbn [In]; intros H;
    repeat match type of H with
           | _ \/ _ => destruct H as [H|H]
           end;
    try contradiction; now subst e.
Qed.

Lemma console_loop_events (l : list Issue) (w : World) :
  console (loop_events host this l w) = [].
Proof.
  apply console_none. intros e H.
  apply loop_events_In in H as (i & w' & _ & H).
  exact (outcome_events_not_logged _ _ _ H).
Qed.

Lemma console_run_events (w : World) :
  console (run_events host this w) =
  match fetched this w with
  | [] => logged this (no_issues_message this)
  | _ :: _ =>
      logged this (total_message this (List.length (fetched this w)))
        ++ report_events this (run_counters host this w)
  end.
Proof.
  unfold run_events. destruct (fetched this w) as [|i0 rest];
    rewrite !console_app, console_fetch_events, ?console_loop_events,
      ?console_logged, ?console_report_events; reflexivity.
Qed.

Lemma run_until_report_eq (w : World) :
  run_until_report host this w =
  (Normal (run_counters host this w),
   advance w
     (fetch_events this w
      ++ logged this (total_message this (List.length (fetched this w)))
      ++ loop_events host this (run_candidates host this w)
           (loop_start this w))
     (List.length (fetched this w)
      + List.length (run_candidates host this w)
        * (decision_reads this + 1))).
Proof.
  unfold run_until_report.
  rewrite (bind_Normal _ _ _ _ _ (_getAllIssues_eq this w)).
  unfold bind at 1. rewrite _log_advance. fold (logged this).
  rewrite (bind_Normal _ _ _ _ _ (_filterOldIssues_eq host this _ _)).
  rewrite triage_loop_eq.
  unfold run_counters, run_candidates, loop_start.
  rewrite !advance_advance, !clock_reads_advance, app_nil_r.
  cbn [Nat.add]. now rewrite !Nat.add_0_r, <- !app_assoc.
Qed.

(** With issues to look at, [run] is the loop followed by the report. *)
Lemma run_reports_after_loop (w : World) :
  fetched this w <> [] ->
  run host this w = bind (run_until_report host this) (report this) w.
Proof.
  intros Hne. unfold bind. rewrite run_until_report_eq, report_eq, run_eq.
  rewrite advance_advance. unfold run_events, run_reads.
  destruct (fetched this w) as [|i0 rest]; [contradiction|].
  now rewrite Nat.add_0_r, <- !app_assoc.
Qed.

Lemma accepted_none (f : Event -> bool) (l : list Event) :
  (forall e, f e = true -> is_write e = true) ->
  (forall e, In e l -> is_write e = false) ->
  filter f l = [].
Proof.
  intros Hf. induction l as [|e l IH]; intros H; [reflexivity|].
  cbn [filter]. destruct (f e) eqn:E.
  - apply Hf in E. rewrite (H e (or_introl eq_refl)) in E. discriminate.
  - apply IH. intros x Hx. apply H. now right.
Qed.

Lemma accepted_label_is_write (e : Event) :
  is_accepted_label_update e = true -> is_write e = true.
Proof. destruct e; try discriminate; reflexivity. Qed.

Lemma accepted_close_is_write (e : Event) :
  is_accepted_close e = true -> is_write e = true.
Proof. destruct e; try discriminate; reflexivity. Qed.

Section Live.

Context (Hlive : dryRun host = false).

Lemma outcome_live_counts (issue : Issue) (c : Counters) (w : World) :
  markedStale (outcome_counters host this issue c w)
  = (markedStale c
     + List.length (filter is_accepted_label_update
                      (outcome_events host this issue w)))%nat
  /\ closed (outcome_counters host this issue c w)
     = (closed c
        + List.length (filter is_accepted_close
                         (outcome_events host this issue w)))%nat.
Proof.
  unfold outcome_counters, outcome_events.
  destruct (user issue) as [u|] eqn:Hu; unfold outcome; rewrite Hu, ?Hlive.
  - destruct (kit_issues_createComment _ _ _) as [[]|m];
      [destruct (kit_issues_update _ _ _) as [[]|m]|];
      unfold count_one, update_request;
      try destruct (closing_at host this (clock_reads w) issue); cbn; lia.
  - cbn. lia.
Qed.

Lemma loop_live_counts (l : list Issue) :
  forall c w,
    markedStale (loop_counters host this l c w)
    = (markedStale c
       + List.length (filter is_accepted_label_update
                        (loop_events host this l w)))%nat
    /\ closed (loop_counters host this l c w)
       = (closed c
          + List.length (filter is_accepted_close
                           (loop_events host this l w)))%nat.
Proof.
  induction l as [|i l IH]; intros c w; cbn [loop_counters loop_events].
  - cbn. lia.
  - rewrite !filter_app, !length_app.
    destruct (IH (outcome_counters host this i c w)
                (after_candidate host this i w)) as [-> ->].
    destruct (outcome_live_counts i c w) as [-> ->]. lia.
Qed.

Lemma run_live_counts (w : World) :
  markedStale (run_counters host this w)
  = List.length (filter is_accepted_label_update (run_events host this w))
  /\ closed (run_counters host this w)
     = List.length (filter is_accepted_close (run_events host this w)).
Proof.
  unfold run_events.
  pose proof (loop_live_counts (run_candidates host this w)
                {| markedStale := 0; closed := 0 |} (loop_start this w))
    as [Hm Hc].
  fold (run_counters host this w) in Hm, Hc. cbn [markedStale closed] in Hm, Hc.
  assert (run_candidates host this w = [] -> run_counters host this w
          = {| markedStale := 0; closed := 0 |}) as Hnil.
  { unfold run_counters. now intros ->. }
  destruct (fetched this w) as [|i0 rest] eqn:Hf.
  - rewrite Hnil by (unfold run_candidates; now rewrite Hf).
    rewrite !filter_app.
    rewrite !(accepted_none _ (fetch_events this w))
      by (apply accepted_label_is_write || apply accepted_close_is_write
          || apply fetch_events_no_write).
    rewrite !(accepted_none _ (logged this _))
      by (apply accepted_label_is_write || apply accepted_close_is_write
          || apply logged_no_write).
    now split.
  - rewrite !filter_app.
    rewrite !(accepted_none _ (fetch_events this w))
      by (apply accepted_label_is_write || apply accepted_close_is_write
          || apply fetch_events_no_write).
    rewrite !(accepted_none _ (logged this _))
      by (apply accepted_label_is_write || apply accepted_close_is_write
          || apply logged_no_write).
    rewrite !(accepted_none _ (report_events this _))
      by (apply accepted_label_is_write || apply accepted_close_is_write
          || apply report_events_no_write).
    cbn [app]. rewrite !app_nil_r. now split.
Qed.

End Live.

End ReportFacts.

(* ================================================================== *)
(** ** The dry run and the live run it stands for *)
(* ================================================================== *)

(** C9, as amended.  Take a dry run and a live run with the same clock, the
    same action and the same starting world.  The dry run sends no comment
    and no update.  When the tracker accepts every comment and every update
    that the live run sends (none of the write requests in the trace of the
    live run is rejected), the dry run is the live run without its write
    requests: same events otherwise, in particular the same [console.log]
    lines, and the loop of [run] ends with the same counters.  The same
    holds of the loop alone, for any candidates and any starting world. *)
Theorem dry_run_matches_accepted_live_run
    (dry live : Host) (this : ActionIssueTriage) (w : World) :
  dryRun dry = true ->
  dryRun live = false ->
  (forall n, clock dry n = clock live n) ->
  exists evs_dry evs_live k,
    run dry this w = (Normal tt, advance w evs_dry k)
    /\ run live this w = (Normal tt, advance w evs_live k)
    /\ (forall e, In e evs_dry -> is_write e = false)
    /\ ((forall e, In e evs_live -> is_rejected_write e = false) ->
        evs_dry = filter not_write evs_live
        /\ console evs_dry = console evs_live
        /\ exists c,
             fst (run_until_report dry this w) = Normal c
             /\ fst (run_until_report live this w) = Normal c)
    /\ (forall candidates w' evs,
          trace (snd (triage_loop live this candidates w')) = trace w' ++ evs ->
          (forall e, In e evs -> is_rejected_write e = false) ->
          fst (triage_loop dry this candidates w')
          = fst (triage_loop live this candidates w')).
Proof.
  intros Hdry Hlive Hclock.
  exists (run_events dry this w), (run_events live this w),
    (run_reads dry this w).
  split; [apply run_eq|].
  split; [rewrite (run_reads_same_clock dry live this Hclock); apply run_eq|].
  split; [exact (run_events_dry dry this Hdry w)|].
  split.
  - intros Hacc.
    destruct (run_same dry live this Hdry Hlive Hclock w Hacc) as [Hc He].
    split; [exact He|]. split; [rewrite He; apply console_not_write|].
    exists (run_counters live this w).
    rewrite !run_until_report_eq. cbn [fst]. now rewrite Hc.
  - intros candidates w' evs Htrace Hacc.
    rewrite triage_loop_eq in Htrace. cbn [snd] in Htrace.
    rewrite trace_advance in Htrace. apply app_inv_head in Htrace.
    subst evs. rewrite !triage_loop_eq. cbn [fst]. f_equal.
    exact (proj1 (loop_same dry live this Hdry Hlive Hclock candidates _
                    w' w' eq_refl Hacc)).
Qed.

Lemma dry_run_matches_accepted_live_run_witness :
  dryRun Scenario.dry = true
  /\ dryRun Scenario.live = false
  /\ (forall n, clock Scenario.dry n = clock Scenario.live n)
  /\ exists evs_dry evs_live k,
       run Scenario.dry Scenario.action Scenario.world0
       = (Normal tt, advance Scenario.world0 evs_dry k)
       /\ run Scenario.live Scenario.action Scenario.world0
          = (Normal tt, advance Scenario.world0 evs_live k)
       /\ (forall e, In e evs_dry -> is_write e = false)
       /\ forallb (fun e => negb (is_rejected_write e)) evs_live = true
       /\ evs_dry = filter not_write evs_live
       /\ console evs_dry = console evs_live
       /\ exists c,
            fst (run_until_report Scenario.dry Scenario.action Scenario.world0)
            = Normal c
            /\ fst (run_until_report Scenario.live Scenario.action
                      Scenario.world0)
               = Normal c.
Proof.
  split; [reflexivity|]. split; [reflexivity|]. split; [reflexivity|].
  destruct (dry_run_matches_accepted_live_run Scenario.dry Scenario.live
              Scenario.action Scenario.world0 eq_refl eq_refl
              (fun n => eq_refl))
    as (evs_dry & evs_live & k & Hd & Hl & Hw & Hsame & _).
  exists evs_dry, evs_live, k.
  split; [exact Hd|]. split; [exact Hl|]. split; [exact Hw|].
  assert (forallb (fun e => negb (is_rejected_write e)) evs_live = true)
    as Hacc.
  { apply (f_equal (fun r => trace (snd r))) in Hl.
    vm_compute in Hl. subst evs_live. vm_compute. reflexivity. }
  split; [exact Hacc|].
  apply Hsame. intros e He.
  rewrite forallb_forall in Hacc. specialize (Hacc e He).
  now destruct (is_rejected_write e).
Defined.

(** C9 as stated fails when the live tracker refuses a request.  Same
    process, same clock, same issues, a tracker that rejects every comment:
    the dry run reports one issue marked stale and one closed, the live run
    reports none. *)
Lemma dry_run_differs_from_refused_live_run :
  dryRun Scenario.dry = true
  /\ dryRun Scenario.live = false
  /\ console (trace (snd (run Scenario.dry Scenario.refused Scenario.world0)))
     = [console_log "Total issues for krizzu/issue-triage-action: 3";
        console_log "Issues marked as stale: 1";
        console_log "Issues closed down: 1"]
  /\ console (trace (snd (run Scenario.live Scenario.refused Scenario.world0)))
     = [console_log "Total issues for krizzu/issue-triage-action: 3";
        console_log "No old issues found, sweet!"]
  /\ fst (triage_loop Scenario.dry Scenario.refused Scenario.candidates
            Scenario.world0)
     = Normal {| markedStale := 1; closed := 1 |}
  /\ fst (triage_loop Scenario.live Scenario.refused Scenario.candidates
            Scenario.world0)
     = Normal {| markedStale := 0; closed := 0 |}
  /\ console (trace (snd (run Scenario.dry Scenario.refused Scenario.world0)))
     <> console (trace (snd (run Scenario.live Scenario.refused
                               Scenario.world0))).
Proof.
  repeat (split; [vm_compute; reflexivity|]).
  vm_compute. discriminate.
Qed.

(** C7, as amended.  [run] takes no argument and returns no value: it always
    completes normally with [undefined].  The counts are the two local
    counters the loop ends with; they only show in the log, through [_log]:
    after the line with the total (or the line saying that no issue was
    found), one line per non-zero counter, or the line saying that nothing
    was old.  In a live run [markedStale] is the number of label updates the
    tracker accepted and [closed] the number of closes it accepted. *)
Theorem run_returns_nothing_and_logs_counts
    (host : Host) (this : ActionIssueTriage) (w : World) :
  exists allIssues evs k c,
    fst (_getAllIssues this w) = Normal allIssues
    /\ run host this w = (Normal tt, advance w evs k)
    /\ fst (run_until_report host this w) = Normal c
    /\ (allIssues <> [] ->
        run host this w = bind (run_until_report host this) (report this) w)
    /\ console evs
       = match allIssues with
         | [] => logged this (no_issues_message this)
         | _ :: _ =>
             logged this (total_message this (List.length allIssues))
               ++ report_events this c
         end
    /\ (dryRun host = false ->
        markedStale c
        = List.length (filter is_accepted_label_update evs)
        /\ closed c = List.length (filter is_accepted_close evs)).
Proof.
  exists (fetched this w), (run_events host this w), (run_reads host this w),
    (run_counters host this w).
  split; [now rewrite _getAllIssues_eq|].
  split; [apply run_eq|].
  split; [now rewrite run_until_report_eq|].
  split; [apply run_reports_after_loop|].
  split; [apply console_run_events|].
  intros Hlive. now apply run_live_counts.
Qed.

(** C7 as stated fails: what [run] returns is [undefined] whatever the
    counters are.  On the worked scenario the loop ends with one issue
    marked stale and one closed, with a tracker that refuses comments it
    ends with none, and [run] returns the same value in both runs; so the
    counts cannot be read off the value returned. *)
Lemma run_result_carries_no_counts :
  fst (run Scenario.live Scenario.action Scenario.world0) = Normal tt
  /\ fst (run_until_report Scenario.live Scenario.action Scenario.world0)
     = Normal {| markedStale := 1; closed := 1 |}
  /\ fst (run Scenario.live Scenario.refused Scenario.world0) = Normal tt
  /\ fst (run_until_report Scenario.live Scenario.refused Scenario.world0)
     = Normal {| markedStale := 0; closed := 0 |}
  /\ ~ (exists decode : unit -> Counters,
          forall host this w v c,
            fst (run host this w) = Normal v ->
            fst (run_until_report host this w) = Normal c ->
            decode v = c).
Proof.
  assert (fst (run Scenario.live Scenario.action Scenario.world0) = Normal tt)
    as R1 by (vm_compute; reflexivity).
  assert (fst (run_until_report Scenario.live Scenario.action Scenario.world0)
          = Normal {| markedStale := 1; closed := 1 |})
    as C1 by (vm_compute; reflexivity).
  assert (fst (run Scenario.live Scenario.refused Scenario.world0) = Normal tt)
    as R2 by (vm_compute; reflexivity).
  assert (fst (run_until_report Scenario.live Scenario.refused Scenario.world0)
          = Normal {| markedStale := 0; closed := 0 |})
    as C2 by (vm_compute; reflexivity).
  repeat (split; [assumption|]).
  intros [decode H].
  pose proof (H _ _ _ _ _ R1 C1) as E1.
  pose proof (H _ _ _ _ _ R2 C2) as E2.
  congruence.
Qed.

(* ================================================================== *)
(** ** Fetching the issues *)
(* ================================================================== *)

Section FetchFacts.

Context (this : ActionIssueTriage).

Lemma page_events_rejected (pages : list Z) :
  forall h p m,
    In (issues_listForRepo p (Rejected m)) (page_events this h pages) ->
    exists e, Promise_all (page_promises this h pages) = Throw e.
Proof.
  induction pages as [|i pages IH]; intros h p m; cbn [page_events].
  - intros [].
  - cbn [page_promises Promise_all].
    destruct (kit_issues_listForRepo (kit this) h (list_request this i))
      as [data|m'] eqn:Hr.
    + intros [H|H]; [discriminate|].
      destruct (IH _ _ _ H) as [e ->]. now exists e.
    + intros _. now eexists.
Qed.

Lemma fetch_failed_fetched (w : World) :
  fetch_failed (fetch_events this w) -> fetched this w = [].
Proof.
  unfold fetch_failed, fetch_events, fetched.
  destruct (kit_repos_get _ _ _) as [n|m0]; [|reflexivity].
  intros [(p & m & H)|(p & m & H)].
  - exfalso. destruct H as [H|H]; [discriminate|].
    apply in_app_iff in H as [H|H].
    + clear -H. revert H.
      generalize (trace w ++ [repos_get (repo_request this) (Resolved n)]).
      induction (range_from_1 _) as [|i pages IH]; intros h [].
      * discriminate.
      * eapply IH; eassumption.
    + destruct (Promise_all _); [destruct H|].
      destruct H as [H|[]]. discriminate.
  - destruct H as [H|H]; [discriminate|].
    apply in_app_iff in H as [H|H].
    + apply page_events_rejected in H as [e ->]. reflexivity.
    + destruct (Promise_all _) as [v|e]; [destruct H | reflexivity].
Qed.

Lemma fetched_empty_repository (w : World) :
  kit_repos_get (kit this) (trace w) (repo_request this) = Resolved 0 ->
  fetched this w = [].
Proof. unfold fetched. now intros ->. Qed.

End FetchFacts.

(** C3.  [_getAllIssues] never throws.  When the repository lookup or one
    of the page listings is rejected, it returns the empty list; [run] then
    only logs that no issue was found (through [_log], so when [showLogs] is
    set) and completes normally.  The value returned is the one a
    repository without open issues gives, so the caller cannot tell the two
    apart from it. *)
Theorem failed_fetch_returns_no_issue
    (host : Host) (this : ActionIssueTriage) (w : World) (evs : list Event) :
  trace (snd (_getAllIssues this w)) = trace w ++ evs ->
  fetch_failed evs ->
  _getAllIssues this w = (Normal [], advance w evs 0)
  /\ run host this w
     = (Normal tt, advance w (evs ++ logged this (no_issues_message this)) 0)
  /\ forall this' w',
       kit_repos_get (kit this') (trace w') (repo_request this') = Resolved 0 ->
       fst (_getAllIssues this' w') = fst (_getAllIssues this w).
Proof.
  rewrite _getAllIssues_eq. cbn [snd]. rewrite trace_advance.
  intros E%app_inv_head Hfail. subst evs.
  pose proof (fetch_failed_fetched this w Hfail) as Hf.
  split; [now rewrite Hf|]. split.
  - rewrite run_eq. unfold run_events, run_reads. now rewrite Hf.
  - intros this' w' H0. rewrite !_getAllIssues_eq. cbn [fst].
    now rewrite Hf, (fetched_empty_repository this' w' H0).
Qed.

Lemma failed_fetch_returns_no_issue_witness :
  trace (snd (_getAllIssues Scenario.lost Scenario.world0))
  = trace Scenario.world0 ++ Scenario.lost_events
  /\ fetch_failed Scenario.lost_events
  /\ _getAllIssues Scenario.lost Scenario.world0
     = (Normal [], advance Scenario.world0 Scenario.lost_events 0)
  /\ run Scenario.live Scenario.lost Scenario.world0
     = (Normal tt,
        advance Scenario.world0
          (Scenario.lost_events
           ++ logged Scenario.lost (no_issues_message Scenario.lost)) 0)
  /\ forall this' w',
       kit_repos_get (kit this') (trace w') (repo_request this') = Resolved 0 ->
       fst (_getAllIssues this' w')
       = fst (_getAllIssues Scenario.lost Scenario.world0).
Proof.
  assert (trace (snd (_getAllIssues Scenario.lost Scenario.world0))
          = trace Scenario.world0 ++ Scenario.lost_events) as Htrace
    by reflexivity.
  assert (fetch_failed Scenario.lost_events) as Hfail.
  { left. eexists. eexists. left. reflexivity. }
  split; [exact Htrace|]. split; [exact Hfail|].
  exact (failed_fetch_returns_no_issue Scenario.live Scenario.lost
           Scenario.world0 Scenario.lost_events Htrace Hfail).
Defined.

Lemma ceil_div_bounds (n : Z) :
  100 * (JS.Math_ceil_div n 100 - 1) < n <= 100 * JS.Math_ceil_div n 100.
Proof.
  unfold JS.Math_ceil_div.
  pose proof (Z.div_mod (- n) 100 ltac:(lia)).
  pose proof (Z.mod_pos_bound (- n) 100 ltac:(lia)).
  lia.
Qed.

Lemma concat_filter {A} (f : A -> bool) (ls : list (list A)) :
  List.concat (map (filter f) ls) = filter f (List.concat ls).
Proof.
  induction ls as [|l ls IH]; [reflexivity|].
  cbn [map List.concat]. now rewrite filter_app, IH.
Qed.

(** Cutting a list into pages of [s] items and gluing the pages back. *)
Lemma pages_cover (s : nat) (m : nat) :
  forall (A : Type) (items : list A),
    (List.length items <= s * m)%nat ->
    List.concat
      (map (fun k => firstn s (skipn ((k - 1) * s) items)) (seq 1 m))
    = items.
Proof.
  induction m as [|m IH]; intros A items Hlen.
  - destruct items; [reflexivity | cbn in Hlen; lia].
  - cbn [seq map List.concat]. rewrite <- seq_shift, map_map.
    rewrite (map_ext_in _
               (fun k => firstn s (skipn ((k - 1) * s) (skipn s items)))).
    + rewrite IH; [apply firstn_skipn|]. rewrite length_skipn. nia.
    + intros k Hk. apply in_seq in Hk. rewrite skipn_skipn.
      do 2 f_equal. nia.
Qed.

Section FetchPages.

Context (this : ActionIssueTriage).

Lemma listing_requests_page_events (pages : list Z) :
  forall h,
    listing_requests (page_events this h pages)
    = map (list_request this) pages.
Proof.
  induction pages as [|i pages IH]; intros h; [reflexivity|].
  cbn [page_events]. unfold listing_requests in *. cbn [flat_map app map].
  now rewrite IH.
Qed.

Lemma page_promises_resolved (pages : list Z) :
  forall h,
    (forall p m,
        ~ In (issues_listForRepo p (Rejected m)) (page_events this h pages)) ->
    Promise_all (page_promises this h pages)
    = Normal (map (filter _isIssue) (listed_pages (page_events this h pages))).
Proof.
  induction pages as [|i pages IH]; intros h Hok; [reflexivity|].
  cbn [page_events page_promises Promise_all] in *.
  destruct (kit_issues_listForRepo (kit this) h (list_request this i))
    as [data|m] eqn:Hr.
  - rewrite IH.
    + reflexivity.
    + intros p m H. apply (Hok p m). now right.
  - exfalso. apply (Hok (list_request this i) m). now left.
Qed.

Lemma listed_pages_of (items : list Issue) (pages : list Z) :
  (forall h p,
      kit_issues_listForRepo (kit this) h p = Resolved (page_of items p)) ->
  forall h,
    listed_pages (page_events this h pages)
    = map (fun i => page_of items (list_request this i)) pages
    /\ forall p m,
         ~ In (issues_listForRepo p (Rejected m)) (page_events this h pages).
Proof.
  intros Hkit. induction pages as [|i pages IH]; intros h.
  - split; [reflexivity | intros p m []].
  - cbn [page_events]. rewrite Hkit. unfold listed_pages in *.
    cbn [flat_map app map]. destruct (IH (h ++ [issues_listForRepo
                                                  (list_request this i)
                                                  (Resolved (page_of items (list_request this i)))]))
      as [-> Hno].
    split; [reflexivity|]. intros p m [H|H]; [discriminate|].
    exact (Hno _ _ H).
Qed.

Lemma pages_of_items (items : list Issue) :
  List.concat
    (map (fun i => page_of items (list_request this i))
       (range_from_1
          (JS.Math_ceil_div (Z.of_nat (List.length items)) issuesPerPage)))
  = items.
Proof.
  unfold range_from_1, issuesPerPage. rewrite map_map.
  pose proof (ceil_div_bounds (Z.of_nat (List.length items))) as B.
  rewrite (map_ext_in _
             (fun k => firstn 100 (skipn ((k - 1) * 100) items))).
  - apply pages_cover. lia.
  - intros k Hk. apply in_seq in Hk.
    unfold page_of, list_request, issuesPerPage. cbn [lp_per_page lp_page].
    do 2 f_equal. lia.
Qed.

End FetchPages.

Lemma length_filter_complement {A} (f : A -> bool) (l : list A) :
  List.length (filter (fun x => negb (f x)) l)
  = (List.length l - List.length (filter f l))%nat.
Proof.
  assert (List.length (filter f l)
          + List.length (filter (fun x => negb (f x)) l)
          = List.length l)%nat as H.
  { induction l as [|x l IH]; [reflexivity|].
    cbn [filter]. destruct (f x); cbn [negb List.length]; lia. }
  lia.
Qed.

(** [_isIssue] keeps exactly the items without a [pull_request] field. *)
Lemma _isIssue_pull_request (issue : Issue) :
  _isIssue issue = negb (is_pull_request issue).
Proof.
  unfold _isIssue, is_pull_request. now destruct (pull_request issue).
Qed.

Lemma filter_isIssue (items : list Issue) :
  filter _isIssue items = without_pull_requests items.
Proof. apply filter_ext. exact _isIssue_pull_request. Qed.

Lemma without_pull_requests_In (items : list Issue) (issue : Issue) :
  In issue (without_pull_requests items)
  <-> In issue items /\ pull_request issue = None.
Proof.
  unfold without_pull_requests, is_pull_request. rewrite filter_In.
  destruct (pull_request issue); cbn [negb]; intuition congruence.
Qed.

(** C4.  When the repository reports [N] open items, [_getAllIssues] sends
    one listing request per page [1 .. ceiling(N / 100)], in this order and
    each for 100 items.  When no listing is rejected it returns the pages,
    each without the items that carry a [pull_request] field, concatenated
    in page order.  For a tracker that serves a list of [N] items in pages
    it therefore returns exactly the items without a [pull_request] field,
    each once and in the order served: [N - P] issues when [P] of the items
    are pull requests. *)
Theorem fetch_requests_every_page_and_returns_every_issue
    (this : ActionIssueTriage) (w : World) (N : Z) :
  kit_repos_get (kit this) (trace w) (repo_request this) = Resolved N ->
  exists evs,
    trace (snd (_getAllIssues this w)) = trace w ++ evs
    /\ 100 * (JS.Math_ceil_div N 100 - 1) < N <= 100 * JS.Math_ceil_div N 100
    /\ map lp_page (listing_requests evs)
       = range_from_1 (JS.Math_ceil_div N 100)
    /\ List.length (listing_requests evs) = Z.to_nat (JS.Math_ceil_div N 100)
    /\ Forall (fun p => lp_per_page p = 100) (listing_requests evs)
    /\ ((forall p m, ~ In (issues_listForRepo p (Rejected m)) evs) ->
        fst (_getAllIssues this w)
        = Normal (List.concat (map without_pull_requests (listed_pages evs))))
    /\ (forall items,
          N = Z.of_nat (List.length items) ->
          (forall h p,
              kit_issues_listForRepo (kit this) h p
              = Resolved (page_of items p)) ->
          exists issues,
            fst (_getAllIssues this w) = Normal issues
            /\ issues = without_pull_requests items
            /\ (forall issue,
                  In issue issues
                  <-> In issue items /\ pull_request issue = None)
            /\ List.length issues
               = (List.length items
                  - List.length (filter is_pull_request items))%nat).
Proof.
  intros Hget. exists (fetch_events this w).
  rewrite _getAllIssues_eq. cbn [snd fst]. rewrite trace_advance.
  split; [reflexivity|]. split; [apply ceil_div_bounds|].
  unfold fetch_events, fetched. rewrite Hget. cbv zeta.
  set (h := trace w ++ [repos_get (repo_request this) (Resolved N)]).
  change issuesPerPage with 100.
  set (pages := range_from_1 (JS.Math_ceil_div N 100)).
  assert (forall tail,
             (forall e, In e tail -> exists s, e = core_error s) ->
             listing_requests
               (repos_get (repo_request this) (Resolved N)
                  :: page_events this h pages ++ tail)
             = map (list_request this) pages
             /\ listed_pages
                  (repos_get (repo_request this) (Resolved N)
                     :: page_events this h pages ++ tail)
                = listed_pages (page_events this h pages)) as Hreq.
  { intros tail Htail. unfold listing_requests, listed_pages.
    cbn [flat_map app]. rewrite !flat_map_app.
    fold (listing_requests (page_events this h pages)).
    rewrite listing_requests_page_events.
    assert (forall (B : Type) (f : Event -> list B),
               (forall s, f (core_error s) = []) -> flat_map f tail = [])
      as Hnil.
    { intros B f Hf. clear -Htail Hf.
      induction tail as [|e tail IH]; [reflexivity|].
      cbn [flat_map]. destruct (Htail e (or_introl eq_refl)) as [s ->].
      rewrite Hf, IH; [reflexivity|].
      intros x Hx. apply Htail. now right. }
    rewrite !Hnil by reflexivity. now rewrite !app_nil_r. }
  assert (forall e,
             In e (match Promise_all (page_promises this h pages) with
                   | Normal _ => []
                   | Throw e => [fetch_error e]
                   end) -> exists s, e = core_error s) as Htail.
  { intros e. destruct (Promise_all _); [intros []|].
    intros [<-|[]]. now eexists. }
  destruct (Hreq _ Htail) as [Hl Hp]. rewrite Hl, Hp.
  split; [rewrite map_map; apply map_id|].
  split; [rewrite length_map; unfold pages, range_from_1;
          now rewrite length_map, length_seq|].
  split; [apply Forall_forall; intros p Hin; apply in_map_iff in Hin
          as (i & <- & _); reflexivity|].
  split.
  - intros Hok. rewrite page_promises_resolved.
    + do 2 f_equal. apply map_ext. exact filter_isIssue.
    + intros p m H. apply (Hok p m). right. apply in_app_iff. now left.
  - intros items HN Hkit.
    destruct (listed_pages_of this items pages Hkit h) as [Hpages Hno].
    rewrite page_promises_resolved by exact Hno.
    rewrite Hpages, concat_filter. unfold pages. rewrite HN.
    change 100 with issuesPerPage. rewrite pages_of_items.
    exists (without_pull_requests items).
    split; [now rewrite filter_isIssue|]. split; [reflexivity|].
    split; [apply without_pull_requests_In|].
    apply length_filter_complement.
Qed.

Lemma fetch_requests_every_page_and_returns_every_issue_witness :
  kit_repos_get (kit Scenario.crowded) (trace Scenario.world0)
    (repo_request Scenario.crowded) = Resolved 250
  /\ exists evs,
       trace (snd (_getAllIssues Scenario.crowded Scenario.world0))
       = trace Scenario.world0 ++ evs
       /\ 100 * (JS.Math_ceil_div 250 100 - 1) < 250
          <= 100 * JS.Math_ceil_div 250 100
       /\ map lp_page (listing_requests evs)
          = range_from_1 (JS.Math_ceil_div 250 100)
       /\ List.length (listing_requests evs)
          = Z.to_nat (JS.Math_ceil_div 250 100)
       /\ Forall (fun p => lp_per_page p = 100) (listing_requests evs)
       /\ ((forall p m, ~ In (issues_listForRepo p (Rejected m)) evs) ->
           fst (_getAllIssues Scenario.crowded Scenario.world0)
           = Normal (List.concat
                       (map without_pull_requests (listed_pages evs))))
       /\ (forall items,
             250 = Z.of_nat (List.length items) ->
             (forall h p,
                 kit_issues_listForRepo (kit Scenario.crowded) h p
                 = Resolved (page_of items p)) ->
             exists issues,
               fst (_getAllIssues Scenario.crowded Scenario.world0)
               = Normal issues
               /\ issues = without_pull_requests items
               /\ (forall issue,
                     In issue issues
                     <-> In issue items /\ pull_request issue = None)
               /\ List.length issues
                  = (List.length items
                     - List.length (filter is_pull_request items))%nat).
Proof.
  split; [reflexivity|].
  apply (fetch_requests_every_page_and_returns_every_issue Scenario.crowded
           Scenario.world0 250).
  reflexivity.
Defined.

Example fetch_of_250_items :
  fst (_getAllIssues Scenario.crowded Scenario.world0)
  = Normal (without_pull_requests Scenario.crowd)
  /\ List.length (filter is_pull_request Scenario.crowd) = 50%nat
  /\ List.length (without_pull_requests Scenario.crowd) = 200%nat
  /\ map lp_page
       (listing_requests
          (trace (snd (_getAllIssues Scenario.crowded Scenario.world0))))
     = [1; 2; 3].
Proof. repeat split; vm_compute; reflexivity. Qed.

(* ================================================================== *)
(** ** The options of the start-up script *)
(* ================================================================== *)

(** C6.  The start-up script reads the input [staleComment] where it should
    read [closeComment]: the close template is the [staleComment] input when
    that one is supplied and the built-in close template otherwise, and the
    [closeComment] input has no effect.  With only [closeComment] supplied,
    the issue that is closed gets the built-in close message. *)
Theorem closeComment_input_is_not_read :
  (forall host,
      Index.closeComment host
      = Index.or_else (core_getInput host "staleComment")
          Index.closeCommentDefault)
  /\ core_getInput Scenario.customised "closeComment"
     = "Closing, @%AUTHOR%"%string
  /\ core_getInput Scenario.customised "staleComment" = EmptyString
  /\ Index.closeComment Scenario.customised = Index.closeCommentDefault
  /\ Index.closeComment Scenario.customised
     <> core_getInput Scenario.customised "closeComment"
  /\ Index.closeComment Scenario.live
     = core_getInput Scenario.live "staleComment"
  /\ option_map
       (fun m => filter is_write (trace (snd (m Scenario.world0))))
       (Index.main Scenario.customised
          (Scenario.serving [Scenario.issue 3 70 "bob"]))
     = Some
         [issues_createComment
            {| cp_owner := "krizzu";
               cp_repo := "issue-triage-action";
               cp_issue_number := 3;
               cp_body :=
                 JS.String_replace
                   (JS.String_replace Index.closeCommentDefault
                      "%DAYS_OLD%" "70")
                   "%AUTHOR%" "bob" |}
            (Resolved tt);
          issues_update
            {| up_owner := "krizzu";
               up_repo := "issue-triage-action";
               up_issue_number := 3;
               up_state := Some "closed"%string;
               up_labels := None |}
            (Resolved tt)].
Proof.
  split; [reflexivity|].
  repeat (split; [vm_compute; reflexivity || discriminate|]).
  vm_compute. reflexivity.
Qed.

(* ================================================================== *)
(** ** The worked run, step by step *)
(* ================================================================== *)

(** Three open issues updated 10, 40 and 70 days ago, [staleAfter = 30] and
    [closeAfter = 60]: the first is left alone, the second is commented on
    and labelled, the third is commented on and closed. *)
Example worked_run :
  run Scenario.live Scenario.action Scenario.world0
  = (Normal tt,
     advance Scenario.world0
       [repos_get (repo_request Scenario.action) (Resolved 3);
        issues_listForRepo (list_request Scenario.action 1)
          (Resolved Scenario.issues);
        console_log "Total issues for krizzu/issue-triage-action: 3";
        issues_createComment
          {| cp_owner := "krizzu"; cp_repo := "issue-triage-action";
             cp_issue_number := 2; cp_body := "40 days, @alice" |}
          (Resolved tt);
        issues_update
          {| up_owner := "krizzu"; up_repo := "issue-triage-action";
             up_issue_number := 2; up_state := None;
             up_labels := Some ["STALE"%string] |}
          (Resolved tt);
        issues_createComment
          {| cp_owner := "krizzu"; cp_repo := "issue-triage-action";
             cp_issue_number := 3; cp_body := "70 days, @bob" |}
          (Resolved tt);
        issues_update
          {| up_owner := "krizzu"; up_repo := "issue-triage-action";
             up_issue_number := 3; up_state := Some "closed"%string;
             up_labels := None |}
          (Resolved tt);
        console_log "Issues marked as stale: 1";
        console_log "Issues closed down: 1"]
       7).
Proof. vm_compute. reflexivity. Qed.

(** The comment on issue 2 is rejected: issue 2 is not updated and not
    counted, issue 3 is still closed and counted. *)
Example rejected_comment_is_isolated :
  triage_loop Scenario.live Scenario.picky Scenario.candidates Scenario.world0
  = (Normal {| markedStale := 0; closed := 1 |},
     advance Scenario.world0
       [issues_createComment
          {| cp_owner := "krizzu"; cp_repo := "issue-triage-action";
             cp_issue_number := 2; cp_body := "40 days, @alice" |}
          (Rejected "Locked");
        core_error "Could not post a comment in issue #2: Locked";
        core_warning (Thrown "Could not post comment for #2.");
        issues_createComment
          {| cp_owner := "krizzu"; cp_repo := "issue-triage-action";
             cp_issue_number := 3; cp_body := "70 days, @bob" |}
          (Resolved tt);
        issues_update
          {| up_owner := "krizzu"; up_repo := "issue-triage-action";
             up_issue_number := 3; up_state := Some "closed"%string;
             up_labels := None |}
          (Resolved tt)]
       4).
Proof. vm_compute. reflexivity. Qed.

(** The second of three pages is rejected: all three are requested, the
    fetch returns no issue and logs the error. *)
Example rejected_page_empties_the_fetch :
  fst (_getAllIssues Scenario.flaky Scenario.world0) = Normal []
  /\ map lp_page
       (listing_requests
          (trace (snd (_getAllIssues Scenario.flaky Scenario.world0))))
     = [1; 2; 3]
  /\ In (core_error "Error while fetching issues: Bad Gateway")
       (trace (snd (_getAllIssues Scenario.flaky Scenario.world0)))
  /\ console (trace (snd (run Scenario.live Scenario.flaky Scenario.world0)))
     = [console_log "No issues found for krizzu/issue-triage-action"].
Proof.
  split; [vm_compute; reflexivity|]. split; [vm_compute; reflexivity|].
  split; [|vm_compute; reflexivity].
  vm_compute. do 4 right. left. reflexivity.
Qed.

(* ================================================================== *)
(** * Further properties *)
(* ================================================================== *)

(* ================================================================== *)
(** ** Pull requests are left alone *)
(* ================================================================== *)

Section ListedFacts.

Context (host : Host) (this : ActionIssueTriage).

Lemma page_promises_listed (pages : list Z) :
  forall h response issue,
    Promise_all (page_promises this h pages) = Normal response ->
    In issue (List.concat response) ->
    _isIssue issue = true
    /\ exists q data,
         In (issues_listForRepo q (Resolved data)) (page_events this h pages)
         /\ In issue data.
Proof.
  induction pages as [|i pages IH]; intros h response issue;
    cbn [page_promises page_events Promise_all].
  - intros [= <-] [].
  - destruct (kit_issues_listForRepo (kit this) h (list_request this i))
      as [data|m]; [|discriminate].
    destruct (Promise_all _) as [vs|e] eqn:Hall; [|discriminate].
    intros [= <-]. cbn [List.concat]. rewrite in_app_iff. intros [H|H].
    + apply filter_In in H as [Hin Hissue]. split; [exact Hissue|].
      exists (list_request this i), data. split; [now left | exact Hin].
    + destruct (IH _ _ _ Hall H) as (Hissue & q & d & Hq & Hd).
      split; [exact Hissue|]. exists q, d. split; [now right | exact Hd].
Qed.

(** Whatever the fetch returns was listed by the tracker in this very fetch
    and is no pull request. *)
Lemma fetched_listed (w : World) (issue : Issue) :
  In issue (fetched this w) ->
  _isIssue issue = true
  /\ exists q data,
       In (issues_listForRepo q (Resolved data)) (fetch_events this w)
       /\ In issue data.
Proof.
  unfold fetched, fetch_events.
  destruct (kit_repos_get _ _ _) as [n|m]; [|intros []].
  destruct (Promise_all _) as [response|e] eqn:Hall; [|intros []].
  intros H. destruct (page_promises_listed _ _ _ _ Hall H)
    as (Hissue & q & d & Hq & Hd).
  split; [exact Hissue|]. exists q, d. split; [|exact Hd].
  right. apply in_app_iff. now left.
Qed.

Lemma kept_from_incl (issues : list Issue) :
  forall n issue, In issue (kept_from host this n issues) -> In issue issues.
Proof.
  intros n issue H. apply kept_from_In in H as (k & Hk & _).
  exact (nth_error_In _ _ Hk).
Qed.

Lemma fetch_events_run (w : World) (e : Event) :
  In e (fetch_events this w) -> In e (run_events host this w).
Proof.
  unfold run_events. intros H.
  destruct (fetched this w); apply in_app_iff; now left.
Qed.

(** The issue behind a write request of a run. *)
Lemma run_write_candidate (w : World) (e : Event) :
  In e (run_events host this w) -> is_write e = true ->
  exists issue w',
    In issue (run_candidates host this w)
    /\ In e (outcome_events host this issue w').
Proof.
  intros H Hw. apply run_events_write in H; [|exact Hw].
  exact (loop_events_In host this _ _ _ H).
Qed.

End ListedFacts.

(** X1.  A run never comments on and never updates a pull request: every
    comment request and every update request of a run carries the number of
    an item that the tracker listed during this run and that is no pull
    request. *)
Theorem run_leaves_pull_requests_alone
    (host : Host) (this : ActionIssueTriage) (w : World) :
  exists evs k,
    run host this w = (Normal tt, advance w evs k)
    /\ (forall p r,
          In (issues_createComment p r) evs ->
          exists q data issue,
            In (issues_listForRepo q (Resolved data)) evs
            /\ In issue data
            /\ pull_request issue = None
            /\ number issue = cp_issue_number p)
    /\ (forall p r,
          In (issues_update p r) evs ->
          exists q data issue,
            In (issues_listForRepo q (Resolved data)) evs
            /\ In issue data
            /\ pull_request issue = None
            /\ number issue = up_issue_number p).
Proof.
  exists (run_events host this w), (run_reads host this w).
  split; [apply run_eq|].
  assert (forall issue,
             In issue (run_candidates host this w) ->
             exists q data,
               In (issues_listForRepo q (Resolved data))
                 (run_events host this w)
               /\ In issue data /\ pull_request issue = None) as Hlisted.
  { intros issue Hc. apply kept_from_incl in Hc.
    apply fetched_listed in Hc as (Hissue & q & d & Hq & Hd).
    exists q, d. split; [now apply fetch_events_run|]. split; [exact Hd|].
    unfold _isIssue in Hissue. now destruct (pull_request issue). }
  split.
  - intros p r H.
    destruct (run_write_candidate host this w _ H eq_refl)
      as (issue & w' & Hc & He).
    apply outcome_events_comment in He as (u & _ & ->).
    destruct (Hlisted _ Hc) as (q & d & Hq & Hd & Hpr).
    exists q, d, issue. now repeat split.
  - intros p r H.
    destruct (run_write_candidate host this w _ H eq_refl)
      as (issue & w' & Hc & He).
    apply outcome_events_update in He as ->.
    destruct (Hlisted _ Hc) as (q & d & Hq & Hd & Hpr).
    exists q, d, issue. now repeat split.
Qed.

(* ================================================================== *)
(** ** Where the requests go *)
(* ================================================================== *)

Section AddressFacts.

Context (host : Host) (this : ActionIssueTriage).

Lemma page_events_addressed (pages : list Z) :
  forall h, Forall (addressed_to (opts this)) (page_events this h pages).
Proof.
  induction pages as [|i pages IH]; intros h; cbn [page_events];
    constructor; [now cbn | apply IH].
Qed.

Lemma fetch_events_addressed (w : World) :
  Forall (addressed_to (opts this)) (fetch_events this w).
Proof.
  unfold fetch_events. destruct (kit_repos_get _ _ _) as [n|m].
  - constructor; [now cbn|]. apply Forall_app. split.
    + apply page_events_addressed.
    + destruct (Promise_all _); repeat constructor.
  - repeat constructor.
Qed.

Lemma logged_addressed (message : string) :
  Forall (addressed_to (opts this)) (logged this message).
Proof. unfold logged. destruct (showLogs _); repeat constructor. Qed.

Lemma report_events_addressed (c : Counters) :
  Forall (addressed_to (opts this)) (report_events this c).
Proof.
  unfold report_events.
  destruct (Nat.eqb (markedStale c) 0), (Nat.eqb (closed c) 0); cbn [andb];
    (apply Forall_app; split; [|apply Forall_app; split]);
    try apply logged_addressed; constructor.
Qed.

Lemma outcome_events_addressed (issue : Issue) (w : World) :
  Forall (addressed_to (opts this)) (outcome_events host this issue w).
Proof.
  unfold outcome_events.
  destruct (user issue) as [u|];
    [destruct (outcome host this issue w); [| | |destruct (dryRun host)]|];
    repeat constructor.
Qed.

Lemma loop_events_addressed (l : list Issue) :
  forall w, Forall (addressed_to (opts this)) (loop_events host this l w).
Proof.
  induction l as [|i l IH]; intros w; cbn [loop_events]; [constructor|].
  apply Forall_app. split; [apply outcome_events_addressed | apply IH].
Qed.

End AddressFacts.

(** X2.  Every request of a run, from the repository lookup to the last
    update, is addressed to the repository [repoOwner]/[repoName] of the
    options, and every listing asks for the open items sorted by update
    time, the most recent first. *)
Theorem run_addresses_one_repository
    (host : Host) (this : ActionIssueTriage) (w : World) :
  exists evs k,
    run host this w = (Normal tt, advance w evs k)
    /\ Forall (addressed_to (opts this)) evs.
Proof.
  exists (run_events host this w), (run_reads host this w).
  split; [apply run_eq|]. unfold run_events.
  destruct (fetched this w).
  - apply Forall_app. split;
      [apply fetch_events_addressed | apply logged_addressed].
  - apply Forall_app. split; [apply fetch_events_addressed|].
    apply Forall_app. split; [apply logged_addressed|].
    apply Forall_app. split;
      [apply loop_events_addressed | apply report_events_addressed].
Qed.

Lemma split_no_slash (s : string) :
  has_slash s = false -> Index.split "/" s = [s].
Proof.
  induction s as [|c s IH]; [reflexivity|]. cbn [has_slash Index.split].
  intros H. apply orb_false_elim in H as [Hc Hs].
  now rewrite Hc, (IH Hs).
Qed.

Lemma split_first_slash (a b : string) :
  has_slash a = false ->
  Index.split "/" (a +++ String "/" b) = a :: Index.split "/" b.
Proof.
  induction a as [|c a IH]; [reflexivity|].
  cbn [has_slash String.append Index.split].
  intros H. apply orb_false_elim in H as [Hc Ha].
  now rewrite Hc, (IH Ha).
Qed.

(** X3.  The start-up script takes the repository from
    [GITHUB_REPOSITORY]: for a value [owner/name], the options it builds
    have [repoOwner = owner] and [repoName = name]; anything after a second
    slash is dropped. *)
Theorem options_read_the_repository
    (host : Host) (owner name rest : string) (o : Options) :
  has_slash owner = false ->
  has_slash name = false ->
  GITHUB_REPOSITORY host = owner +++ String "/" name
  \/ GITHUB_REPOSITORY host = owner +++ String "/" (name +++ String "/" rest) ->
  Index.options host = Some o ->
  repoOwner o = owner /\ repoName o = name.
Proof.
  intros Ho Hn Hrepo. unfold Index.options.
  assert (exists tail,
             Index.split "/" (GITHUB_REPOSITORY host) = owner :: name :: tail)
    as [tail ->].
  { destruct Hrepo as [-> | ->]; rewrite split_first_slash by exact Ho.
    - exists []. now rewrite split_no_slash.
    - eexists. now rewrite split_first_slash. }
  destruct (Index.staleAfter host), (Index.closeAfter host);
    try discriminate.
  intros [= <-]. now split.
Qed.

Lemma options_read_the_repository_witness :
  has_slash "krizzu" = false
  /\ has_slash "issue-triage-action" = false
  /\ (GITHUB_REPOSITORY Scenario.live
      = "krizzu" +++ String "/" "issue-triage-action"
      \/ GITHUB_REPOSITORY Scenario.live
         = "krizzu" +++ String "/" ("issue-triage-action" +++ String "/" ""))
  /\ Index.options Scenario.live = Some Scenario.options
  /\ repoOwner Scenario.options = "krizzu"%string
  /\ repoName Scenario.options = "issue-triage-action"%string.
Proof.
  split; [reflexivity|]. split; [reflexivity|].
  split; [left; reflexivity|]. split; [reflexivity|].
  apply (options_read_the_repository Scenario.live "krizzu"
           "issue-triage-action" "" Scenario.options);
    [reflexivity | reflexivity | left; reflexivity | reflexivity].
Defined.

(* ================================================================== *)
(** ** Triage while the clock runs *)
(* ================================================================== *)

Section RunningClock.

Context (host : Host) (this : ActionIssueTriage).



Context (Hclock : forall n m, (n <= m)%nat -> clock host n <= clock host m).



End RunningClock.



(** With the clock of [More.ticking], the run on the three issues of the
    worked scenario keeps the two that are older than 30 days. *)
Example ticking_candidates :
  fst (_filterOldIssues More.ticking Scenario.action Scenario.issues
         Scenario.world0)
  = Normal Scenario.candidates.
Proof. reflexivity. Qed.

(* ================================================================== *)
(** ** Closing switched off *)
(* ================================================================== *)

Section ClosingOff.

Context (host : Host) (this : ActionIssueTriage).
Context (Hoff : closeAfter (opts this) <= staleAfter (opts this)).

Lemma closing_at_off (n : nat) (issue : Issue) :
  closing_at host this n issue = false.
Proof.
  unfold closing_at.
  destruct (closeAfter (opts this) >? staleAfter (opts this)) eqn:E;
    [|reflexivity].
  apply Z.gtb_lt in E. lia.
Qed.

Lemma outcome_counters_off (issue : Issue) (c : Counters) (w : World) :
  closed (outcome_counters host this issue c w) = closed c.
Proof.
  unfold outcome_counters. rewrite closing_at_off.
  now destruct (outcome host this issue w).
Qed.

Lemma loop_counters_off (l : list Issue) :
  forall c w, closed (loop_counters host this l c w) = closed c.
Proof.
  induction l as [|i l IH]; intros c w; cbn [loop_counters]; [reflexivity|].
  now rewrite IH, outcome_counters_off.
Qed.

End ClosingOff.

(** X5.  When [closeAfter] does not exceed [staleAfter] (as with its default
    0 and a [staleAfter] that is not negative), a run never asks to close an
    issue, however old the issue and whatever the clock: every update it
    sends is a label update, and the loop ends with [closed = 0]. *)
Theorem no_close_unless_closeAfter_exceeds_staleAfter
    (host : Host) (this : ActionIssueTriage) (w : World) :
  closeAfter (opts this) <= staleAfter (opts this) ->
  exists evs k c,
    run host this w = (Normal tt, advance w evs k)
    /\ fst (run_until_report host this w) = Normal c
    /\ closed c = 0%nat
    /\ forall q r,
         In (issues_update q r) evs ->
         up_state q = None /\ exists l, up_labels q = Some l.
Proof.
  intros Hoff.
  exists (run_events host this w), (run_reads host this w),
    (run_counters host this w).
  split; [apply run_eq|]. split; [now rewrite run_until_report_eq|].
  split; [apply (loop_counters_off host this Hoff)|].
  intros q r H.
  destruct (run_write_candidate host this w _ H eq_refl)
    as (issue & w' & _ & He).
  apply outcome_events_update in He as ->.
  rewrite (closing_at_off host this Hoff). cbn. split; [reflexivity|].
  now eexists.
Qed.

Lemma no_close_unless_closeAfter_exceeds_staleAfter_witness :
  closeAfter (opts More.stale_only) <= staleAfter (opts More.stale_only)
  /\ exists evs k c,
       run Scenario.live More.stale_only Scenario.world0
       = (Normal tt, advance Scenario.world0 evs k)
       /\ fst (run_until_report Scenario.live More.stale_only Scenario.world0)
          = Normal c
       /\ closed c = 0%nat
       /\ forall q r,
            In (issues_update q r) evs ->
            up_state q = None /\ exists l, up_labels q = Some l.
Proof.
  assert (closeAfter (opts More.stale_only)
          <= staleAfter (opts More.stale_only)) as Hoff
    by (cbn; discriminate).
  split; [exact Hoff|].
  exact (no_close_unless_closeAfter_exceeds_staleAfter Scenario.live
           More.stale_only Scenario.world0 Hoff).
Defined.

Example stale_only_run :
  fst (run_until_report Scenario.live More.stale_only Scenario.world0)
  = Normal {| markedStale := 2; closed := 0 |}.
Proof. vm_compute. reflexivity. Qed.

(* ================================================================== *)
(** ** The age shown in a comment *)
(* ================================================================== *)

Lemma _getDaysSince_advance (host : Host) (dayCreated : Z) (w : World) :
  _getDaysSince host dayCreated w
  = (Normal (days_since_at (clock host (clock_reads w)) dayCreated),
     advance w [] 1).
Proof.
  unfold _getDaysSince.
  now rewrite (bind_Normal _ _ _ _ _ (new_Date_advance host w)).
Qed.

(** X6.  The strict comparison of [_isOlderThan] and the rounding of
    [_getDaysSince] agree in one direction: once a date is found older than
    [days] days, the number of days computed for it at that reading of the
    clock or at any later one is at least [days].  So the comment on a stale
    issue never shows fewer days than [staleAfter], and the comment on a
    closed one never fewer than [closeAfter]; it can show exactly that
    many. *)
Theorem older_date_shows_at_least_the_threshold
    (host : Host) (date days : Z) (w w' : World) :
  fst (_isOlderThan host date days w) = Normal true ->
  clock host (clock_reads w) <= clock host (clock_reads w') ->
  exists d, fst (_getDaysSince host date w') = Normal d /\ days <= d.
Proof.
  rewrite _isOlderThan_advance, _getDaysSince_advance. cbn [fst].
  intros [= Hold] Hlater. apply older_at_iff in Hold.
  eexists. split; [reflexivity|].
  unfold days_since_at, JS.Math_round_abs_div.
  apply Z.div_le_lower_bound; unfold oneDay in *; lia.
Qed.

Lemma older_date_shows_at_least_the_threshold_witness :
  fst (_isOlderThan Scenario.live (Scenario.now - Scenario.day 30 - 1) 30
         Scenario.world0) = Normal true
  /\ clock Scenario.live (clock_reads Scenario.world0)
     <= clock Scenario.live (clock_reads (advance Scenario.world0 [] 1))
  /\ exists d,
       fst (_getDaysSince Scenario.live (Scenario.now - Scenario.day 30 - 1)
              (advance Scenario.world0 [] 1)) = Normal d
       /\ 30 <= d.
Proof.
  assert (fst (_isOlderThan Scenario.live (Scenario.now - Scenario.day 30 - 1)
                 30 Scenario.world0) = Normal true) as Hold by reflexivity.
  assert (clock Scenario.live (clock_reads Scenario.world0)
          <= clock Scenario.live (clock_reads (advance Scenario.world0 [] 1)))
    as Hlater by (cbn; discriminate).
  split; [exact Hold|]. split; [exact Hlater|].
  exact (older_date_shows_at_least_the_threshold Scenario.live
           (Scenario.now - Scenario.day 30 - 1) 30 Scenario.world0
           (advance Scenario.world0 [] 1) Hold Hlater).
Defined.

Example barely_stale_shows_the_threshold :
  fst (_getDaysSince Scenario.live (Scenario.now - Scenario.day 30 - 1)
         Scenario.world0) = Normal 30.
Proof. reflexivity. Qed.

(* ================================================================== *)
(** ** The order of the requests *)
(* ================================================================== *)

Lemma comment_numbers_app (a b : list Event) :
  comment_numbers (a ++ b) = comment_numbers a ++ comment_numbers b.
Proof. apply flat_map_app. Qed.

Lemma update_follows_app (a b : list Event) :
  update_follows_its_comment a ->
  update_follows_its_comment b ->
  starts_with_update b = false ->
  update_follows_its_comment (a ++ b).
Proof.
  intros Ha Hb Hstart l1 q r l2 E.
  apply app_eq_app in E as [l [[Ea El]|[El Eb]]].
  - destruct l as [|e l]; cbn [app] in El.
    + subst b. discriminate.
    + injection El as <- _. exact (Ha _ _ _ _ Ea).
  - destruct (Hb _ _ _ _ Eb) as (l1' & p & Hl & Hp).
    exists (a ++ l1'), p. split; [|exact Hp].
    rewrite El, Hl. now rewrite app_assoc.
Qed.

Section OrderFacts.

Context (host : Host) (this : ActionIssueTriage).

Lemma outcome_events_start (issue : Issue) (w : World) :
  starts_with_update (outcome_events host this issue w) = false.
Proof.
  unfold outcome_events.
  destruct (user issue) as [u|];
    [destruct (outcome host this issue w); [| | |destruct (dryRun host)]|];
    reflexivity.
Qed.

Lemma loop_events_start (l : list Issue) :
  forall w, starts_with_update (loop_events host this l w) = false.
Proof.
  induction l as [|i l IH]; intros w; cbn [loop_events]; [reflexivity|].
  pose proof (outcome_events_start i w) as H.
  destruct (outcome_events host this i w) as [|e evs]; [apply IH|].
  now destruct e.
Qed.

Ltac find_update E l1 :=
  repeat (destruct l1 as [|? l1]; cbn [app] in E;
          [try discriminate E | injection E as <- E]);
  try (destruct l1; discriminate E).

Lemma outcome_events_follow (issue : Issue) (w : World) :
  update_follows_its_comment (outcome_events host this issue w).
Proof.
  unfold outcome_events. intros l1 q r l2 E.
  destruct (user issue) as [u|];
    [destruct (outcome host this issue w); [| | |destruct (dryRun host)]|].
  - destruct l1; discriminate E.
  - find_update E l1.
  - find_update E l1. injection E as <- _ _.
    eexists nil, _. split; reflexivity.
  - destruct l1; discriminate E.
  - find_update E l1. injection E as <- _ _.
    eexists nil, _. split; reflexivity.
  - find_update E l1.
Qed.

Lemma loop_events_follow (l : list Issue) :
  forall w, update_follows_its_comment (loop_events host this l w).
Proof.
  induction l as [|i l IH]; intros w; cbn [loop_events].
  - intros l1 q r l2 E. destruct l1; discriminate E.
  - apply update_follows_app;
      [apply outcome_events_follow | apply IH | apply loop_events_start].
Qed.

Lemma outcome_comment_numbers (issue : Issue) (w : World) :
  comment_numbers (outcome_events host this issue w)
  = if dryRun host then []
    else if has_author issue then [number issue] else [].
Proof.
  unfold outcome_events, outcome, has_author.
  destruct (user issue) as [u|]; [|now destruct (dryRun host)].
  destruct (dryRun host); [reflexivity|].
  destruct (kit_issues_createComment _ _ _) as [[]|];
    [destruct (kit_issues_update _ _ _) as [[]|]|]; reflexivity.
Qed.

Lemma loop_comment_numbers (l : list Issue) :
  forall w,
    comment_numbers (loop_events host this l w)
    = if dryRun host then [] else map number (filter has_author l).
Proof.
  induction l as [|i l IH]; intros w; cbn [loop_events filter].
  - now destruct (dryRun host).
  - rewrite comment_numbers_app, IH, outcome_comment_numbers.
    destruct (dryRun host); [reflexivity|].
    now destruct (has_author i).
Qed.

End OrderFacts.

(** X7.  The loop works through its candidates one after the other, in the
    order it is given them.  In a live run the comment requests are, in
    order, one for each candidate that has an author, whatever the tracker
    answered to the earlier ones; in a dry run there is none.  An update
    request is only ever sent right after the comment on the same issue was
    accepted. *)
Theorem requests_follow_the_candidates
    (host : Host) (this : ActionIssueTriage) (candidates : list Issue)
    (w : World) :
  exists c evs k,
    triage_loop host this candidates w = (Normal c, advance w evs k)
    /\ comment_numbers evs
       = (if dryRun host then []
          else map number (filter has_author candidates))
    /\ forall l1 q r l2,
         evs = l1 ++ issues_update q r :: l2 ->
         exists l1' p,
           l1 = l1' ++ [issues_createComment p (Resolved tt)]
           /\ cp_issue_number p = up_issue_number q.
Proof.
  do 3 eexists. split; [apply triage_loop_eq|].
  split; [apply loop_comment_numbers | apply loop_events_follow].
Qed.

(* ================================================================== *)
(** ** The [showLogs] input *)
(* ================================================================== *)

Lemma options_showLogs (host : Host) (o : Options) :
  Index.options host = Some o ->
  showLogs o = String.eqb (Index.showLogs host) "true".
Proof.
  unfold Index.options.
  destruct (Index.split "/" (GITHUB_REPOSITORY host)) as [|a [|b l]];
    try discriminate.
  destruct (Index.staleAfter host), (Index.closeAfter host);
    try discriminate.
  now intros [= <-].
Qed.

Lemma showLogs_input (host : Host) :
  String.eqb (Index.showLogs host) "true" = true
  <-> core_getInput host "showLogs" = EmptyString
      \/ core_getInput host "showLogs" = "true"%string.
Proof.
  unfold Index.showLogs, Index.or_else.
  destruct (String.eqb_spec (core_getInput host "showLogs") "") as [E|E].
  - split; [now left | reflexivity].
  - rewrite String.eqb_eq. split; [now right | now intros [H|H]].
Qed.

Lemma console_run_silent (host : Host) (this : ActionIssueTriage) (w : World) :
  showLogs (opts this) = false -> console (run_events host this w) = [].
Proof.
  intros H. rewrite console_run_events. unfold report_events, logged.
  rewrite H. destruct (fetched this w); [reflexivity|].
  now destruct (Nat.eqb _ 0), (Nat.eqb _ 0).
Qed.

(** X8.  The action logs exactly when the [showLogs] input is not supplied
    or is the string [true]: with any other value, [True] or [1] for
    instance, the option is false and the whole run prints no line with
    [console.log]. *)
Theorem only_the_string_true_shows_logs
    (host : Host) (client : Kit) (m : M unit) (w : World) :
  Index.main host client = Some m ->
  exists o evs k,
    Index.options host = Some o
    /\ m w = (Normal tt, advance w evs k)
    /\ (showLogs o = true
        <-> core_getInput host "showLogs" = EmptyString
            \/ core_getInput host "showLogs" = "true"%string)
    /\ (showLogs o = false -> console evs = []).
Proof.
  unfold Index.main. destruct (Index.options host) as [o|] eqn:Ho;
    [|discriminate].
  intros [= <-].
  exists o, (run_events host {| kit := client; opts := o |} w),
    (run_reads host {| kit := client; opts := o |} w).
  split; [reflexivity|]. split; [apply run_eq|]. split.
  - rewrite (options_showLogs host o Ho). apply showLogs_input.
  - intros H. now apply console_run_silent.
Qed.

Lemma only_the_string_true_shows_logs_witness :
  Index.main More.quiet (Scenario.serving Scenario.issues)
  = Some (run More.quiet
            {| kit := Scenario.serving Scenario.issues;
               opts := {| repoOwner := "krizzu";
                          repoName := "issue-triage-action";
                          staleAfter := 30;
                          closeAfter := 60;
                          staleComment := Index.staleCommentDefault;
                          closeComment := Index.closeCommentDefault;
                          staleLabel := "STALE";
                          showLogs := false |} |})
  /\ exists o evs k,
       Index.options More.quiet = Some o
       /\ run More.quiet
            {| kit := Scenario.serving Scenario.issues;
               opts := {| repoOwner := "krizzu";
                          repoName := "issue-triage-action";
                          staleAfter := 30;
                          closeAfter := 60;
                          staleComment := Index.staleCommentDefault;
                          closeComment := Index.closeCommentDefault;
                          staleLabel := "STALE";
                          showLogs := false |} |} Scenario.world0
          = (Normal tt, advance Scenario.world0 evs k)
       /\ (showLogs o = true
           <-> core_getInput More.quiet "showLogs" = EmptyString
               \/ core_getInput More.quiet "showLogs" = "true"%string)
       /\ (showLogs o = false -> console evs = []).
Proof.
  split; [reflexivity|].
  apply (only_the_string_true_shows_logs More.quiet
           (Scenario.serving Scenario.issues) _ Scenario.world0).
  reflexivity.
Defined.

(* ================================================================== *)
(** ** How a fetch reports its failure *)
(* ================================================================== *)

Section FetchReport.

Context (this : ActionIssueTriage).

Lemma page_events_listings (pages : list Z) :
  forall h e,
    In e (page_events this h pages) -> exists p r, e = issues_listForRepo p r.
Proof.
  induction pages as [|i pages IH]; intros h e; cbn [page_events].
  - intros [].
  - intros [<-|H]; [now eexists; eexists | exact (IH _ _ H)].
Qed.

Lemma page_events_no_error (pages : list Z) (h : list Event) :
  filter is_core_error (page_events this h pages) = [].
Proof.
  revert h. induction pages as [|i pages IH]; intros h; [reflexivity|].
  cbn [page_events filter is_core_error]. apply IH.
Qed.

Lemma page_promises_Throw (pages : list Z) :
  forall h e,
    Promise_all (page_promises this h pages) = Throw e ->
    exists p m,
      In (issues_listForRepo p (Rejected m)) (page_events this h pages)
      /\ e = ErrorObject "HttpError" m.
Proof.
  induction pages as [|i pages IH]; intros h e;
    cbn [page_promises page_events Promise_all]; [discriminate|].
  destruct (kit_issues_listForRepo (kit this) h (list_request this i))
    as [data|m].
  - destruct (Promise_all _) as [vs|e'] eqn:Hall; [discriminate|].
    intros [= <-]. destruct (IH _ _ Hall) as (p & m & Hin & ->).
    exists p, m. split; [now right | reflexivity].
  - intros [= <-]. exists (list_request this i), m.
    split; [now left | reflexivity].
Qed.

End FetchReport.

(** X9.  A fetch that fails says so once: [_getAllIssues] logs exactly one
    error, carrying the message of a request the tracker rejected, and
    returns no issue; a fetch in which nothing is rejected logs no error.
    When the repository lookup itself is rejected no page is requested.  A
    fetch never writes to the tracker, never warns and never prints. *)
Theorem fetch_logs_one_error_iff_it_fails
    (this : ActionIssueTriage) (w : World) :
  exists issues evs,
    _getAllIssues this w = (Normal issues, advance w evs 0)
    /\ ((exists m,
            rejected_with m evs
            /\ filter is_core_error evs
               = [core_error ("Error while fetching issues: " +++ m)]
            /\ issues = [])
        \/ ((forall m, ~ rejected_with m evs)
            /\ filter is_core_error evs = []))
    /\ ((exists p m, In (repos_get p (Rejected m)) evs) ->
        listing_requests evs = [])
    /\ (forall e,
          In e evs ->
          is_write e = false /\ is_warning e = false
          /\ is_console_log e = false).
Proof.
  exists (fetched this w), (fetch_events this w).
  split; [apply _getAllIssues_eq|].
  unfold fetched, fetch_events, rejected_with.
  destruct (kit_repos_get (kit this) (trace w) (repo_request this))
    as [n|m].
  - set (h := trace w ++ [repos_get (repo_request this) (Resolved n)]).
    set (pages := range_from_1 (JS.Math_ceil_div n issuesPerPage)).
    assert (forall e, In e (page_events this h pages) ->
                      is_write e = false /\ is_warning e = false
                      /\ is_console_log e = false) as Hkinds.
    { intros e He. apply page_events_listings in He as (p & r & ->).
      now repeat split. }
    destruct (Promise_all (page_promises this h pages)) as [response|e]
      eqn:Hall.
    + split; [|split].
      * right. split.
        -- intros m [(p & [H|H])|(p & [H|H])]; try discriminate.
           ++ apply in_app_iff in H as [H|[]].
              apply page_events_listings in H as (? & ? & ?). discriminate.
           ++ apply in_app_iff in H as [H|[]].
              apply page_events_rejected in H as [e He]. congruence.
        -- cbn [filter is_core_error]. rewrite filter_app.
           now rewrite page_events_no_error.
      * intros (p & m & [H|H]); [discriminate|].
        apply in_app_iff in H as [H|[]].
        apply page_events_listings in H as (? & ? & ?). discriminate.
      * intros e [<-|H]; [now repeat split|].
        apply in_app_iff in H as [H|[]]. now apply Hkinds.
    + destruct (page_promises_Throw _ _ _ _ Hall) as (p & m & Hin & ->).
      split; [|split].
      * left. exists m. split; [|split; [|reflexivity]].
        -- right. exists p. right. apply in_app_iff. now left.
        -- cbn [filter is_core_error]. rewrite filter_app.
           now rewrite page_events_no_error.
      * intros (p' & m' & [H|H]); [discriminate|].
        apply in_app_iff in H as [H|[H|[]]]; [|discriminate].
        apply page_events_listings in H as (? & ? & ?). discriminate.
      * intros e [<-|H]; [now repeat split|].
        apply in_app_iff in H as [H|[<-|[]]];
          [now apply Hkinds | now repeat split].
  - split; [|split].
    + left. exists m. split; [|split; reflexivity].
      left. exists (repo_request this). now left.
    + reflexivity.
    + intros e [<-|[<-|[]]]; now repeat split.
Qed.

(* ================================================================== *)
(** ** A candidate without an author *)
(* ================================================================== *)

(** X10.  An issue whose [user] is null cannot be commented on: reading
    [issue.user.login] throws inside [_postComment], before any request is
    built.  The loop catches it: nothing is sent to the tracker for this
    issue, in a live run as in a dry run, the error is passed to
    [core.warning], both counters stay as they were, and the loop goes on
    with the next candidate. *)
Theorem candidate_without_author_is_skipped
    (host : Host) (this : ActionIssueTriage) (issue : Issue)
    (template : string) (c : Counters) (rest : list Issue) (w : World) :
  user issue = None ->
  exists e,
    _postComment host this issue template w = (Throw e, advance w [] 1)
    /\ triage_issue host this issue c w
       = (Normal c, advance w [core_warning e] (decision_reads this + 1))
    /\ for_of (issue :: rest) (triage_issue host this) c w
       = for_of rest (triage_issue host this) c
           (advance w [core_warning e] (decision_reads this + 1)).
Proof.
  intros Hu. eexists.
  assert (triage_issue host this issue c w
          = (Normal c,
             advance w
               [core_warning
                  (ErrorObject "TypeError"
                     "Cannot read property 'login' of null")]
               (decision_reads this + 1))) as Hbody.
  { rewrite triage_issue_eq.
    unfold outcome_counters, outcome_events, outcome. now rewrite Hu. }
  split; [rewrite _postComment_advance, Hu; reflexivity|].
  split; [exact Hbody|].
  cbn [for_of]. now rewrite (bind_Normal _ _ _ _ _ Hbody).
Qed.

Lemma candidate_without_author_is_skipped_witness :
  user More.ghost = None
  /\ exists e,
       _postComment Scenario.live Scenario.action More.ghost
         "%DAYS_OLD% days, @%AUTHOR%" Scenario.world0
       = (Throw e, advance Scenario.world0 [] 1)
       /\ triage_issue Scenario.live Scenario.action More.ghost
            {| markedStale := 0; closed := 0 |} Scenario.world0
          = (Normal {| markedStale := 0; closed := 0 |},
             advance Scenario.world0 [core_warning e]
               (decision_reads Scenario.action + 1))
       /\ for_of (More.ghost :: Scenario.candidates)
            (triage_issue Scenario.live Scenario.action)
            {| markedStale := 0; closed := 0 |} Scenario.world0
          = for_of Scenario.candidates
              (triage_issue Scenario.live Scenario.action)
              {| markedStale := 0; closed := 0 |}
              (advance Scenario.world0 [core_warning e]
                 (decision_reads Scenario.action + 1)).
Proof.
  split; [reflexivity|].
  apply (candidate_without_author_is_skipped Scenario.live Scenario.action
           More.ghost "%DAYS_OLD% days, @%AUTHOR%"
           {| markedStale := 0; closed := 0 |} Scenario.candidates
           Scenario.world0).
  reflexivity.
Defined.

Example ghost_among_the_candidates :
  fst (triage_loop Scenario.live Scenario.action
         (More.ghost :: Scenario.candidates) Scenario.world0)
  = Normal {| markedStale := 1; closed := 1 |}.
Proof. vm_compute. reflexivity. Qed.

(* ================================================================== *)
(** ** Requests that the tracker rejects *)
(* ================================================================== *)


(* ================================================================== *)
(** ** What switches the dry run on, and what it counts *)
(* ================================================================== *)

Section DryCount.

Context (host : Host) (this : ActionIssueTriage).
Context (Hdry : dryRun host = true).

Lemma outcome_dry (issue : Issue) (c : Counters) (w : World) :
  counted (outcome_counters host this issue c w)
  = (counted c + if has_author issue then 1 else 0)%nat
  /\ outcome_events host this issue w
     = if has_author issue then []
       else [core_warning
               (ErrorObject "TypeError"
                  "Cannot read property 'login' of null")].
Proof.
  unfold outcome_counters, outcome_events, outcome, has_author.
  rewrite Hdry. destruct (user issue).
  - rewrite counted_count_one. split; [lia | reflexivity].
  - split; [lia | reflexivity].
Qed.

Lemma loop_dry (l : list Issue) :
  forall c w,
    counted (loop_counters host this l c w)
    = (counted c + List.length (filter has_author l))%nat
    /\ Forall (fun e => is_warning e = true) (loop_events host this l w).
Proof.
  induction l as [|i l IH]; intros c w;
    cbn [loop_counters loop_events filter].
  - split; [cbn; lia | constructor].
  - destruct (IH (outcome_counters host this i c w)
                (after_candidate host this i w)) as [-> Hw].
    destruct (outcome_dry i c w) as [-> ->].
    destruct (has_author i); cbn [List.length app].
    + split; [lia | exact Hw].
    + split; [lia | now constructor].
Qed.

End DryCount.

(** X12.  Any non-empty value of [GH_ACTION_LOCAL_TEST] switches the dry run
    on, the string [false] included.  The loop then sends nothing and counts
    every candidate that has an author as marked stale or closed, whatever
    the tracker would have answered; its only events are the warnings for
    the candidates without an author. *)
Theorem any_value_of_the_test_variable_is_a_dry_run
    (host : Host) (this : ActionIssueTriage) (value : string)
    (candidates : list Issue) (w : World) :
  GH_ACTION_LOCAL_TEST host = Some value ->
  value <> EmptyString ->
  exists c evs k,
    triage_loop host this candidates w = (Normal c, advance w evs k)
    /\ (markedStale c + closed c
        = List.length (filter has_author candidates))%nat
    /\ Forall (fun e => is_warning e = true) evs
    /\ (List.length evs
        = List.length candidates
          - List.length (filter has_author candidates))%nat.
Proof.
  intros Hvar Hvalue.
  assert (dryRun host = true) as Hdry.
  { unfold dryRun. rewrite Hvar.
    now destruct (String.eqb_spec value ""). }
  do 3 eexists. split; [apply triage_loop_eq|].
  destruct (loop_dry host this Hdry candidates
              {| markedStale := 0; closed := 0 |} w) as [Hc Hw].
  split; [exact Hc|]. split; [exact Hw|].
  pose proof (loop_counted_and_warned host this candidates
                {| markedStale := 0; closed := 0 |} w) as H.
  rewrite Hc in H. unfold warnings in H.
  rewrite (filter_all _ _ (proj1 (Forall_forall _ _) Hw)) in H.
  cbn [counted markedStale closed Nat.add] in H. lia.
Qed.

Lemma any_value_of_the_test_variable_is_a_dry_run_witness :
  GH_ACTION_LOCAL_TEST More.local_false = Some "false"%string
  /\ "false"%string <> EmptyString
  /\ exists c evs k,
       triage_loop More.local_false Scenario.refused
         (More.ghost :: Scenario.candidates) Scenario.world0
       = (Normal c, advance Scenario.world0 evs k)
       /\ (markedStale c + closed c
           = List.length (filter has_author
                            (More.ghost :: Scenario.candidates)))%nat
       /\ Forall (fun e => is_warning e = true) evs
       /\ (List.length evs
           = List.length (More.ghost :: Scenario.candidates)
             - List.length (filter has_author
                              (More.ghost :: Scenario.candidates)))%nat.
Proof.
  assert ("false"%string <> EmptyString) as Hvalue by discriminate.
  split; [reflexivity|]. split; [exact Hvalue|].
  exact (any_value_of_the_test_variable_is_a_dry_run More.local_false
           Scenario.refused "false" (More.ghost :: Scenario.candidates)
           Scenario.world0 eq_refl Hvalue).
Defined.

(* ================================================================== *)
(** ** Numeric inputs *)
(* ================================================================== *)

Ltac eval_digit :=
  match goal with
  | |- context [Index.digit_value ?r ?c] =>
      let v := eval vm_compute in (Index.digit_value r c) in
      change (Index.digit_value r c) with v
  end;
  cbv beta iota.

Lemma read_digits_acc (d : Decimal.uint) :
  forall (acc : positive) (count : nat),
    Index.read_digits 10 (NilEmpty.string_of_uint d) (Z.pos acc) count
    = (Z.pos (Pos.of_uint_acc d acc), (count + Decimal.nb_digits d)%nat,
       EmptyString).
Proof.
  induction d; intros acc count;
    cbn [NilEmpty.string_of_uint Pos.of_uint_acc Decimal.nb_digits];
    [now rewrite Nat.add_0_r|..];
    (cbn [Index.read_digits]; eval_digit;
     match goal with
     | |- Index.read_digits _ _ ?z _ = (Z.pos (Pos.of_uint_acc _ ?p), _, _) =>
         replace z with (Z.pos p) by lia
     end; rewrite IHd; now rewrite Nat.add_succ_r).
Qed.

Lemma read_digits_of_uint (d : Decimal.uint) :
  forall count : nat,
    Index.read_digits 10 (NilEmpty.string_of_uint d) 0 count
    = (Z.of_N (Pos.of_uint d), (count + Decimal.nb_digits d)%nat,
       EmptyString).
Proof.
  induction d; intros count;
    cbn [NilEmpty.string_of_uint Pos.of_uint Decimal.nb_digits];
    [now rewrite Nat.add_0_r | ..];
    cbn [Index.read_digits]; eval_digit; cbn [Z.of_N Z.mul Z.add];
    [rewrite IHd | rewrite read_digits_acc ..]; now rewrite Nat.add_succ_r.
Qed.

Lemma trim_end_cons (c : ascii) (s : string) :
  Index.is_white_space c = false ->
  Index.trim_end (String c s) = String c (Index.trim_end s).
Proof.
  intros H. cbn [Index.trim_end]. rewrite H.
  now destruct (Index.trim_end s).
Qed.

(** A decimal numeral has no white space to trim. *)
Lemma trim_numeral (d : Decimal.uint) :
  Index.trim_start (NilEmpty.string_of_uint d) = NilEmpty.string_of_uint d
  /\ Index.trim_end (NilEmpty.string_of_uint d) = NilEmpty.string_of_uint d.
Proof.
  split; [destruct d; reflexivity|].
  induction d; cbn [NilEmpty.string_of_uint]; [reflexivity|..];
    rewrite trim_end_cons by reflexivity; now rewrite IHd.
Qed.

Lemma scale_integer (v : Z) :
  0 <= v <= 2 ^ 53 -> Index.scale v 0 = Some v.
Proof.
  intros Hv. unfold Index.scale.
  destruct (v =? 0) eqn:E; [apply Z.eqb_eq in E; now subst|].
  cbn [Z.leb Z.compare]. rewrite Z.pow_0_r, Z.mul_1_r.
  unfold Index.safe_integer. rewrite Z.abs_eq by lia.
  now rewrite (proj2 (Z.leb_le _ _) (proj2 Hv)).
Qed.

(** A decimal numeral is a decimal literal without fraction and exponent. *)
Lemma StrUnsignedDecimalLiteral_numeral (d : Decimal.uint) :
  d <> Decimal.Nil ->
  Z.of_N (Pos.of_uint d) <= 2 ^ 53 ->
  Index.StrUnsignedDecimalLiteral (NilEmpty.string_of_uint d)
  = Some (Z.of_N (Pos.of_uint d)).
Proof.
  intros Hne Hv. unfold Index.StrUnsignedDecimalLiteral.
  rewrite read_digits_of_uint. cbn [Nat.add].
  destruct (Decimal.nb_digits d) eqn:En; [now destruct d|].
  cbn [Nat.add Nat.eqb Z.of_nat Z.opp]. apply scale_integer. lia.
Qed.

Lemma ToNumber_numeral (d : Decimal.uint) :
  d <> Decimal.Nil ->
  Z.of_N (Pos.of_uint d) <= 2 ^ 53 ->
  Index.ToNumber (NilEmpty.string_of_uint d) = Some (Z.of_N (Pos.of_uint d))
  /\ Index.ToNumber (String "-" (NilEmpty.string_of_uint d))
     = Some (- Z.of_N (Pos.of_uint d)).
Proof.
  intros Hne Hv. pose proof (trim_numeral d) as [Hs He].
  pose proof (StrUnsignedDecimalLiteral_numeral d Hne Hv) as Hu.
  unfold Index.ToNumber. split.
  - rewrite Hs, He.
    assert (Index.StrNumericLiteral (NilEmpty.string_of_uint d)
            = Index.StrUnsignedDecimalLiteral (NilEmpty.string_of_uint d))
      as Hlit
      by (destruct d as [|d'|d'|d'|d'|d'|d'|d'|d'|d'|d'];
          try reflexivity; destruct d'; reflexivity).
    rewrite <- Hu, <- Hlit. now destruct d.
  - cbn [Index.trim_start]. change (Index.is_white_space "-") with false.
    cbv iota. rewrite trim_end_cons by reflexivity. rewrite He.
    change (Index.StrNumericLiteral (String "-" (NilEmpty.string_of_uint d)))
      with (option_map Z.opp
              (Index.StrUnsignedDecimalLiteral (NilEmpty.string_of_uint d))).
    now rewrite Hu.
Qed.

Lemma ToNumber_Number_toString (n : Z) :
  Z.abs n <= 2 ^ 53 ->
  Index.ToNumber (JS.Number_toString n) = Some n.
Proof.
  intros Hn. unfold JS.Number_toString.
  destruct n as [|p|p]; [reflexivity | |];
    cbn [Z.to_int NilZero.string_of_int];
    pose proof (Unsigned.to_uint_nonnil p) as Hne;
    unfold NilZero.string_of_uint;
    destruct (Pos.to_uint p) eqn:E; try contradiction;
    rewrite <- E in *;
    (destruct (ToNumber_numeral _ Hne) as [Hpos Hneg];
     [rewrite Unsigned.of_to; cbn [Z.of_N]; lia|]).
  all: try (rewrite Hpos, Unsigned.of_to; reflexivity).
  all: rewrite Hneg, Unsigned.of_to; reflexivity.
Qed.

Lemma Number_toString_not_empty (n : Z) :
  String.eqb (JS.Number_toString n) "" = false.
Proof.
  unfold JS.Number_toString. destruct n as [|p|p]; [reflexivity | |];
    cbn [Z.to_int NilZero.string_of_int]; [|reflexivity].
  pose proof (Unsigned.to_uint_nonnil p) as Hne.
  unfold NilZero.string_of_uint.
  now destruct (Pos.to_uint p).
Qed.

(** X13.  A number of days written in plain decimal in the workflow is the
    number of days of the options: for an integer [n] of magnitude at most
    2 ^ 53 (the integers a Number holds without rounding), the start-up
    script reads the inputs [staleAfter] and [closeAfter] back exactly,
    zero and negative values included (a supplied [0] is kept, it is not
    replaced by the default).  An input that is not supplied gives 30 for
    [staleAfter] and 0 for [closeAfter]. *)
Theorem decimal_inputs_are_read_back (host : Host) (n : Z) :
  Z.abs n <= 2 ^ 53 ->
  (core_getInput host "staleAfter" = JS.Number_toString n ->
   Index.staleAfter host = Some n)
  /\ (core_getInput host "closeAfter" = JS.Number_toString n ->
      Index.closeAfter host = Some n)
  /\ (core_getInput host "staleAfter" = EmptyString ->
      Index.staleAfter host = Some 30)
  /\ (core_getInput host "closeAfter" = EmptyString ->
      Index.closeAfter host = Some 0).
Proof.
  intros Hn. unfold Index.staleAfter, Index.closeAfter.
  repeat split; intros ->;
    rewrite ?Number_toString_not_empty; try reflexivity;
    now apply ToNumber_Number_toString.
Qed.

Lemma decimal_inputs_are_read_back_witness :
  Z.abs 0 <= 2 ^ 53
  /\ core_getInput More.zero_days "staleAfter" = JS.Number_toString 0
  /\ Index.staleAfter More.zero_days = Some 0
  /\ core_getInput More.zero_days "closeAfter" = EmptyString
  /\ Index.closeAfter More.zero_days = Some 0.
Proof.
  assert (Z.abs 0 <= 2 ^ 53) as Hn by (vm_compute; discriminate).
  pose proof (decimal_inputs_are_read_back More.zero_days 0 Hn)
    as (Hstale & _ & _ & Hclose).
  split; [exact Hn|]. split; [reflexivity|].
  split; [apply Hstale; reflexivity|].
  split; [reflexivity|]. apply Hclose. reflexivity.
Defined.

(* ================================================================== *)
(** ** Runs with nothing to do *)
(* ================================================================== *)

(** X14.  A repository whose open items are all pull requests is treated as
    a repository without issues: when every item the tracker lists in the
    fetch is a pull request, [_getAllIssues] returns the empty list and the
    run ends there, with the line that no issue was found and without
    reading the clock. *)
Theorem only_pull_requests_is_no_issue
    (host : Host) (this : ActionIssueTriage) (w : World) (evs : list Event) :
  trace (snd (_getAllIssues this w)) = trace w ++ evs ->
  (forall q data issue,
      In (issues_listForRepo q (Resolved data)) evs ->
      In issue data -> pull_request issue <> None) ->
  _getAllIssues this w = (Normal [], advance w evs 0)
  /\ run host this w
     = (Normal tt, advance w (evs ++ logged this (no_issues_message this)) 0).
Proof.
  rewrite _getAllIssues_eq. cbn [snd]. rewrite trace_advance.
  intros E%app_inv_head Hpulls. subst evs.
  assert (fetched this w = []) as Hf.
  { destruct (fetched this w) as [|issue rest] eqn:Hf; [reflexivity|].
    exfalso.
    assert (In issue (fetched this w)) as Hin by (rewrite Hf; now left).
    apply fetched_listed in Hin as (Hissue & q & data & Hq & Hd).
    apply (Hpulls q data issue Hq Hd).
    unfold _isIssue in Hissue. now destruct (pull_request issue). }
  split; [now rewrite Hf|].
  rewrite run_eq. unfold run_events, run_reads. now rewrite Hf.
Qed.

Lemma only_pull_requests_is_no_issue_witness :
  trace (snd (_getAllIssues More.only_pulls Scenario.world0))
  = trace Scenario.world0 ++ More.only_pulls_events
  /\ (forall q data issue,
         In (issues_listForRepo q (Resolved data)) More.only_pulls_events ->
         In issue data -> pull_request issue <> None)
  /\ _getAllIssues More.only_pulls Scenario.world0
     = (Normal [], advance Scenario.world0 More.only_pulls_events 0)
  /\ run Scenario.live More.only_pulls Scenario.world0
     = (Normal tt,
        advance Scenario.world0
          (More.only_pulls_events
           ++ logged More.only_pulls (no_issues_message More.only_pulls)) 0).
Proof.
  assert (trace (snd (_getAllIssues More.only_pulls Scenario.world0))
          = trace Scenario.world0 ++ More.only_pulls_events) as Htrace
    by reflexivity.
  assert (forall q data issue,
             In (issues_listForRepo q (Resolved data)) More.only_pulls_events ->
             In issue data -> pull_request issue <> None) as Hpulls.
  { intros q data issue [H|[H|[]]]; [discriminate|].
    injection H as _ <-. intros [<-|[<-|[]]]; discriminate. }
  split; [exact Htrace|]. split; [exact Hpulls|].
  exact (only_pull_requests_is_no_issue Scenario.live More.only_pulls
           Scenario.world0 More.only_pulls_events Htrace Hpulls).
Defined.

Lemma kept_from_none (host : Host) (this : ActionIssueTriage)
    (issues : list Issue) :
  (forall issue n,
      In issue issues ->
      clock host n - updated_at issue <= staleAfter (opts this) * oneDay) ->
  forall n, kept_from host this n issues = [].
Proof.
  intros Hfresh n.
  destruct (kept_from host this n issues) as [|issue rest] eqn:E;
    [reflexivity|].
  exfalso.
  assert (In issue (kept_from host this n issues)) as Hin
    by (rewrite E; now left).
  apply kept_from_In in Hin as (k & Hk & Hage).
  pose proof (Hfresh issue (n + k)%nat (nth_error_In _ _ Hk)). lia.
Qed.

(** X15.  When none of the fetched issues is older than [staleAfter] days
    at any reading of the clock, the run compares each issue once and does
    nothing else: no comment, no update, no warning, and after the line
    with the total the line that no old issue was found. *)
Theorem fresh_issues_are_left_alone
    (host : Host) (this : ActionIssueTriage) (w : World)
    (allIssues : list Issue) (evs : list Event) :
  _getAllIssues this w = (Normal allIssues, advance w evs 0) ->
  allIssues <> [] ->
  (forall issue n,
      In issue allIssues ->
      clock host n - updated_at issue <= staleAfter (opts this) * oneDay) ->
  run host this w
  = (Normal tt,
     advance w
       (evs ++ logged this (total_message this (List.length allIssues))
            ++ logged this "No old issues found, sweet!")
       (List.length allIssues)).
Proof.
  rewrite _getAllIssues_eq. intros [= <- E] Hne Hfresh.
  apply app_inv_head in E. subst evs.
  rewrite run_eq. unfold run_events, run_reads, run_counters, run_candidates.
  rewrite (kept_from_none host this _ Hfresh).
  destruct (fetched this w) as [|i0 rest]; [contradiction|].
  cbn [loop_events loop_counters List.length Nat.mul app].
  unfold report_events. cbn [markedStale closed Nat.eqb andb app].
  now rewrite Nat.add_0_r.
Qed.

Lemma fresh_issues_are_left_alone_witness :
  _getAllIssues More.fresh Scenario.world0
  = (Normal More.fresh_issues,
     advance Scenario.world0
       [repos_get (repo_request More.fresh) (Resolved 1);
        issues_listForRepo (list_request More.fresh 1)
          (Resolved More.fresh_issues)] 0)
  /\ More.fresh_issues <> []
  /\ (forall issue n,
         In issue More.fresh_issues ->
         clock Scenario.live n - updated_at issue
         <= staleAfter (opts More.fresh) * oneDay)
  /\ run Scenario.live More.fresh Scenario.world0
     = (Normal tt,
        advance Scenario.world0
          ([repos_get (repo_request More.fresh) (Resolved 1);
            issues_listForRepo (list_request More.fresh 1)
              (Resolved More.fresh_issues)]
           ++ logged More.fresh
                (total_message More.fresh (List.length More.fresh_issues))
           ++ logged More.fresh "No old issues found, sweet!")
          (List.length More.fresh_issues)).
Proof.
  assert (_getAllIssues More.fresh Scenario.world0
          = (Normal More.fresh_issues,
             advance Scenario.world0
               [repos_get (repo_request More.fresh) (Resolved 1);
                issues_listForRepo (list_request More.fresh 1)
                  (Resolved More.fresh_issues)] 0)) as Hfetch
    by reflexivity.
  assert (More.fresh_issues <> []) as Hne by discriminate.
  assert (forall issue n,
             In issue More.fresh_issues ->
             clock Scenario.live n - updated_at issue
             <= staleAfter (opts More.fresh) * oneDay) as Hfresh.
  { intros issue n [<-|[]]. cbn. discriminate. }
  split; [exact Hfetch|]. split; [exact Hne|]. split; [exact Hfresh|].
  exact (fresh_issues_are_left_alone Scenario.live More.fresh
           Scenario.world0 More.fresh_issues _ Hfetch Hne Hfresh).
Defined.

(* ================================================================== *)
(** ** The built-in comments *)
(* ================================================================== *)

Lemma has_percent_app (a b : string) :
  has_percent (a +++ b) = has_percent a || has_percent b.
Proof.
  induction a as [|c a IH]; [reflexivity|].
  cbn [String.append has_percent]. now rewrite IH, orb_assoc.
Qed.

Lemma has_percent_uint (d : Decimal.uint) :
  has_percent (NilEmpty.string_of_uint d) = false.
Proof. induction d; cbn; auto. Qed.

Lemma has_percent_Number_toString (n : Z) :
  has_percent (JS.Number_toString n) = false.
Proof.
  unfold JS.Number_toString, NilZero.string_of_int, NilZero.string_of_uint.
  destruct (Z.to_int n) as [d|d]; [|cbn [has_percent Ascii.eqb orb]];
    (destruct d; [reflexivity | apply (has_percent_uint (_ d)) ..]).
Qed.

(** A token that starts with a percent sign first occurs after a prefix
    that has none. *)
Lemma occurs_first_after_clean (pre post t : string) :
  has_percent pre = false ->
  occurs_first (String "%" t) (pre +++ String "%" t +++ post) pre post.
Proof.
  intros Hclean. split; [reflexivity|].
  revert Hclean. induction pre as [|c pre IH]; intros Hclean pre' post' E.
  - cbn. lia.
  - cbn [has_percent] in Hclean. apply orb_false_elim in Hclean as [Hc Hpre].
    destruct pre' as [|c' pre']; cbn [String.append] in E.
    + injection E as -> _. discriminate Hc.
    + injection E as _ E. specialize (IH Hpre _ _ E). cbn. lia.
Qed.

Lemma String_replace_after_clean (pre post t value : string) :
  has_percent pre = false ->
  has_dollar value = false ->
  JS.String_replace (pre +++ String "%" t +++ post) (String "%" t) value
  = pre +++ value +++ post.
Proof.
  intros Hclean Hvalue.
  apply (first_replaced_deterministic (String "%" t) value
           (pre +++ String "%" t +++ post)).
  - now apply String_replace_first.
  - constructor. now apply occurs_first_after_clean.
Qed.

(** X16.  The comments the action posts when the workflow supplies no
    template.  On an issue of author [a] that is [d] days old (rounded),
    the built-in stale template renders to the text ending in [CC @a] with
    [d] in its sentence, and the built-in close template likewise: each
    token occurs once in them and both are filled in. *)
Theorem built_in_comments
    (host : Host) (issue : Issue) (author : User) (w : World) :
  user issue = Some author ->
  has_dollar (login author) = false ->
  fst (_generateMessage host issue Index.staleCommentDefault w)
  = Normal (" Beep Boop  " +++ Index.LF +++ Index.LF
            +++ "This issue was last updated "
            +++ JS.Number_toString
                  (days_since_at (clock host (clock_reads w))
                     (updated_at issue))
            +++ " days ago! Marking as STALE." +++ Index.LF
            +++ " CC @" +++ login author)
  /\ fst (_generateMessage host issue Index.closeCommentDefault w)
     = Normal (" Beep Boop  " +++ Index.LF +++ Index.LF
               +++ "This issue was inactive for "
               +++ JS.Number_toString
                     (days_since_at (clock host (clock_reads w))
                        (updated_at issue))
               +++ " days, so closing it down. If you have something to add, please feel free to reopen."
               +++ Index.LF +++ Index.LF +++ "CC @" +++ login author).
Proof.
  intros Hu Hd. rewrite !_generateMessage_advance, Hu. cbn [fst].
  unfold render. set (d := JS.Number_toString _).
  assert (has_percent d = false) as Hpd by apply has_percent_Number_toString.
  assert (has_dollar d = false) as Hdd by apply has_dollar_Number_toString.
  split; f_equal.
  - change Index.staleCommentDefault
      with ((" Beep Boop  " +++ Index.LF +++ Index.LF
             +++ "This issue was last updated ")
            +++ String "%" "DAYS_OLD%"
            +++ (" days ago! Marking as STALE." +++ Index.LF
                 +++ " CC @%AUTHOR%")).
    rewrite String_replace_after_clean by (reflexivity || exact Hdd).
    set (pre := (" Beep Boop  " +++ Index.LF +++ Index.LF
                 +++ "This issue was last updated ")
                +++ d +++ " days ago! Marking as STALE." +++ Index.LF
                +++ " CC @").
    transitivity (JS.String_replace
                    (pre +++ String "%" "AUTHOR%" +++ "")
                    "%AUTHOR%" (login author)).
    + f_equal. unfold pre. now rewrite !append_assoc.
    + rewrite String_replace_after_clean.
      * unfold pre. now rewrite !append_assoc, append_nil_r.
      * unfold pre. now rewrite !has_percent_app, Hpd.
      * exact Hd.
  - change Index.closeCommentDefault
      with ((" Beep Boop  " +++ Index.LF +++ Index.LF
             +++ "This issue was inactive for ")
            +++ String "%" "DAYS_OLD%"
            +++ (" days, so closing it down. If you have something to add, please feel free to reopen."
                 +++ Index.LF +++ Index.LF +++ "CC @%AUTHOR%")).
    rewrite String_replace_after_clean by (reflexivity || exact Hdd).
    set (pre := (" Beep Boop  " +++ Index.LF +++ Index.LF
                 +++ "This issue was inactive for ")
                +++ d
                +++ " days, so closing it down. If you have something to add, please feel free to reopen."
                +++ Index.LF +++ Index.LF +++ "CC @").
    transitivity (JS.String_replace
                    (pre +++ String "%" "AUTHOR%" +++ "")
                    "%AUTHOR%" (login author)).
    + f_equal. unfold pre. now rewrite !append_assoc.
    + rewrite String_replace_after_clean.
      * unfold pre. now rewrite !append_assoc, append_nil_r.
      * unfold pre. now rewrite !has_percent_app, Hpd.
      * exact Hd.
Qed.

Lemma built_in_comments_witness :
  user (Scenario.issue 2 40 "alice") = Some {| login := "alice" |}
  /\ has_dollar "alice" = false
  /\ fst (_generateMessage Scenario.live (Scenario.issue 2 40 "alice")
            Index.staleCommentDefault Scenario.world0)
     = Normal (" Beep Boop  " +++ Index.LF +++ Index.LF
               +++ "This issue was last updated "
               +++ JS.Number_toString
                     (days_since_at
                        (clock Scenario.live (clock_reads Scenario.world0))
                        (updated_at (Scenario.issue 2 40 "alice")))
               +++ " days ago! Marking as STALE." +++ Index.LF
               +++ " CC @" +++ "alice")
  /\ fst (_generateMessage Scenario.live (Scenario.issue 2 40 "alice")
            Index.closeCommentDefault Scenario.world0)
     = Normal (" Beep Boop  " +++ Index.LF +++ Index.LF
               +++ "This issue was inactive for "
               +++ JS.Number_toString
                     (days_since_at
                        (clock Scenario.live (clock_reads Scenario.world0))
                        (updated_at (Scenario.issue 2 40 "alice")))
               +++ " days, so closing it down. If you have something to add, please feel free to reopen."
               +++ Index.LF +++ Index.LF +++ "CC @" +++ "alice").
Proof.
  split; [reflexivity|]. split; [reflexivity|].
  apply (built_in_comments Scenario.live (Scenario.issue 2 40 "alice")
           {| login := "alice" |} Scenario.world0); reflexivity.
Defined.
